(** * Snake engine: a shallow embedding of [snake_game/game.py]

    The simulation core of the terminal Snake game ([Point], [Direction],
    [SnakeGame.__init__], [_reset_game], [_handle_key], [_update],
    [_spawn_food] and the idle computation of [_curses_main]) is embedded as
    Rocq functions.  Python integers are [Z], the deque [self.snake] is a
    [list Point] (head first), the set [self.snake_positions] is a
    [gset Point], floats are IEEE binary64 ([PrimFloat]), and methods that
    mutate [self] run in a small state-and-exception monad. *)

From Stdlib Require Import ZArith Ascii Floats.
From stdpp Require Import gmap list strings pretty.

Local Open Scope Z_scope.

(** ** Geometry *)

Module Geometry.

(** [@dataclass(frozen=True) class Point]: equality and hashing by value. *)
Record Point : Type := mkPoint { x : Z; y : Z }.

#[global] Instance Point_eq_dec : EqDecision Point.
Proof. solve_decision. Defined.

#[global] Instance Point_countable : Countable Point.
Proof.
  refine (inj_countable' (fun p => (x p, y p)) (fun q => mkPoint q.1 q.2) _).
  by intros [??].
Defined.

Definition translate (self : Point) (dx dy : Z) : Point :=
  mkPoint (x self + dx) (y self + dy).

Inductive Direction : Type := UP | DOWN | LEFT | RIGHT.

#[global] Instance Direction_eq_dec : EqDecision Direction.
Proof. solve_decision. Defined.

Definition delta (self : Direction) : Z * Z :=
  match self with
  | UP => (0, -1)
  | DOWN => (0, 1)
  | LEFT => (-1, 0)
  | RIGHT => (1, 0)
  end.

Definition is_opposite (self other : Direction) : bool :=
  let '(dx, dy) := delta self in
  let '(ox, oy) := delta other in
  (dx =? - ox) && (dy =? - oy).

End Geometry.
Export Geometry.

Inductive GameState : Type := RUNNING | COLLISION | WIN.

#[global] Instance GameState_eq_dec : EqDecision GameState.
Proof. solve_decision. Defined.

(** ** Engine state *)

(** The attributes of a [SnakeGame] instance. *)
Record SnakeGame : Type := mkSnakeGame {
  width : Z;
  height : Z;
  speed : Z;
  frame_delay : float;
  snake : list Point;
  snake_positions : gset Point;
  direction : Direction;
  next_direction : Direction;
  food : option Point;
  score : Z;
  paused : bool;
  quit_requested : bool;
  needs_redraw : bool;
}.

(** Attribute assignment [self.f = v], one setter per mutated attribute. *)
Definition set_snake (v : list Point) (g : SnakeGame) : SnakeGame :=
  mkSnakeGame (width g) (height g) (speed g) (frame_delay g) v
    (snake_positions g) (direction g) (next_direction g) (food g) (score g)
    (paused g) (quit_requested g) (needs_redraw g).
Definition set_snake_positions (v : gset Point) (g : SnakeGame) : SnakeGame :=
  mkSnakeGame (width g) (height g) (speed g) (frame_delay g) (snake g)
    v (direction g) (next_direction g) (food g) (score g)
    (paused g) (quit_requested g) (needs_redraw g).
Definition set_direction (v : Direction) (g : SnakeGame) : SnakeGame :=
  mkSnakeGame (width g) (height g) (speed g) (frame_delay g) (snake g)
    (snake_positions g) v (next_direction g) (food g) (score g)
    (paused g) (quit_requested g) (needs_redraw g).
Definition set_next_direction (v : Direction) (g : SnakeGame) : SnakeGame :=
  mkSnakeGame (width g) (height g) (speed g) (frame_delay g) (snake g)
    (snake_positions g) (direction g) v (food g) (score g)
    (paused g) (quit_requested g) (needs_redraw g).
Definition set_food (v : option Point) (g : SnakeGame) : SnakeGame :=
  mkSnakeGame (width g) (height g) (speed g) (frame_delay g) (snake g)
    (snake_positions g) (direction g) (next_direction g) v (score g)
    (paused g) (quit_requested g) (needs_redraw g).
Definition set_score (v : Z) (g : SnakeGame) : SnakeGame :=
  mkSnakeGame (width g) (height g) (speed g) (frame_delay g) (snake g)
    (snake_positions g) (direction g) (next_direction g) (food g) v
    (paused g) (quit_requested g) (needs_redraw g).
Definition set_paused (v : bool) (g : SnakeGame) : SnakeGame :=
  mkSnakeGame (width g) (height g) (speed g) (frame_delay g) (snake g)
    (snake_positions g) (direction g) (next_direction g) (food g) (score g)
    v (quit_requested g) (needs_redraw g).
Definition set_quit_requested (v : bool) (g : SnakeGame) : SnakeGame :=
  mkSnakeGame (width g) (height g) (speed g) (frame_delay g) (snake g)
    (snake_positions g) (direction g) (next_direction g) (food g) (score g)
    (paused g) v (needs_redraw g).
Definition set_needs_redraw (v : bool) (g : SnakeGame) : SnakeGame :=
  mkSnakeGame (width g) (height g) (speed g) (frame_delay g) (snake g)
    (snake_positions g) (direction g) (next_direction g) (food g) (score g)
    (paused g) (quit_requested g) v.

(** ** Methods as state-and-exception computations *)

(** The exceptions the modelled code can raise. *)
Inductive PyExn : Type :=
  | IndexError
  | KeyError (p : Point)
  | ValueError (msg : string).

(** A method call either returns a value or raises; both leave a [self]. *)
Inductive result (A : Type) : Type :=
  | Ok (a : A) (self : SnakeGame)
  | Raise (e : PyExn) (self : SnakeGame).
Arguments Ok {A} a self.
Arguments Raise {A} e self.

Definition M (A : Type) : Type := SnakeGame -> result A.

#[global] Instance M_ret : MRet M := fun A a self => Ok a self.
#[global] Instance M_bind : MBind M := fun A B f m self =>
  match m self with
  | Ok a self' => f a self'
  | Raise e self' => Raise e self'
  end.

Definition gets {A} (f : SnakeGame -> A) : M A := fun self => Ok (f self) self.
Definition modify (f : SnakeGame -> SnakeGame) : M unit :=
  fun self => Ok tt (f self).

(** The state a call leaves behind, returned or raised. *)
Definition state_of {A} (o : result A) : SnakeGame :=
  match o with Ok _ self => self | Raise _ self => self end.

(** *** [collections.deque] and [set] primitives on [self] *)

(** [self.snake[0]] *)
Definition snake_first : M Point := fun self =>
  match snake self with
  | [] => Raise IndexError self
  | p :: _ => Ok p self
  end.

(** [self.snake[-1]] *)
Definition snake_last : M Point := fun self =>
  match last (snake self) with
  | None => Raise IndexError self
  | Some p => Ok p self
  end.

(** [self.snake.pop()] *)
Definition snake_pop : M Point := fun self =>
  match last (snake self) with
  | None => Raise IndexError self
  | Some p => Ok p (set_snake (removelast (snake self)) self)
  end.

(** [self.snake.appendleft(p)] *)
Definition snake_appendleft (p : Point) : M unit :=
  modify (fun self => set_snake (p :: snake self) self).

(** [self.snake_positions.remove(p)] raises [KeyError] on a missing element. *)
Definition snake_positions_remove (p : Point) : M unit := fun self =>
  if decide (p ∈ snake_positions self)
  then Ok tt (set_snake_positions (snake_positions self ∖ {[p]}) self)
  else Raise (KeyError p) self.

(** [self.snake_positions.add(p)] *)
Definition snake_positions_add (p : Point) : M unit :=
  modify (fun self => set_snake_positions ({[p]} ∪ snake_positions self) self).

(** *** Food spawning *)

(** [range(n)] for an integer [n]: empty when [n <= 0]. *)
Definition range (n : Z) : list Z := Z.of_nat <$> seq 0 (Z.to_nat n).

(** The list comprehension of [_spawn_food]: rows outermost. *)
Definition empty_cells (self : SnakeGame) : list Point :=
  y ← range (height self);
  x ← range (width self);
  if decide (mkPoint x y ∉ snake_positions self) then [mkPoint x y] else [].

(** [random.choice(l)] is [l[k]] for a draw [k] below [len(l)]; the draw is
    supplied from outside as [r], reduced modulo the length. *)
Definition random_choice {A} (r : nat) (l : list A) : option A :=
  l !! (r `mod` length l)%nat.

Definition _spawn_food (r : nat) : M unit := fun self =>
  let cells := empty_cells self in
  Ok tt (set_food (match cells with
                   | [] => None
                   | _ :: _ => random_choice r cells
                   end) self).

(** *** Construction and reset *)

(** [float(n)] for a small non-negative integer. *)
Definition float_of_Z (n : Z) : float := PrimFloat.of_uint63 (Uint63.of_Z n).

Definition __init__ (width height speed : Z) : PyExn + SnakeGame :=
  if (width <? 10) || (height <? 10)
  then inl (ValueError "Width and height must be at least 10.")
  else if (speed <? 1) || (speed >? 30)
  then inl (ValueError "Speed must be between 1 and 30 frames per second.")
  else inr {|
    width := width;
    height := height;
    speed := speed;
    frame_delay := (1 / float_of_Z speed)%float;
    snake := [];
    snake_positions := ∅;
    direction := RIGHT;
    next_direction := RIGHT;
    food := None;
    score := 0;
    paused := false;
    quit_requested := false;
    needs_redraw := true;
  |}.

Definition _reset_game (r : nat) : M unit :=
  w ← gets width;
  h ← gets height;
  let mid_x := w `div` 2 in
  let mid_y := h `div` 2 in
  modify (set_snake [mkPoint mid_x mid_y;
                     mkPoint (mid_x - 1) mid_y;
                     mkPoint (mid_x - 2) mid_y]);;
  body ← gets snake;
  modify (set_snake_positions (list_to_set body));;
  modify (set_direction RIGHT);;
  modify (set_next_direction RIGHT);;
  modify (set_score 0);;
  modify (set_paused false);;
  modify (set_quit_requested false);;
  modify (set_needs_redraw true);;
  _spawn_food r.

(** *** Input handling *)

(** Key codes of the [curses] module (the values ncurses defines). *)
Module curses.
Definition KEY_DOWN : Z := 258.
Definition KEY_UP : Z := 259.
Definition KEY_LEFT : Z := 260.
Definition KEY_RIGHT : Z := 261.
Definition KEY_RESIZE : Z := 410.
Definition A_REVERSE : Z := 262144.
End curses.

Definition ord (c : ascii) : Z := Z.of_nat (nat_of_ascii c).

(** A dict literal inserts its items in order, later keys overriding. *)
Definition dict_of {V} (items : list (Z * V)) : gmap Z V :=
  foldl (fun m kv => <[kv.1 := kv.2]> m) ∅ items.

Definition direction_map : gmap Z Direction :=
  dict_of [
    (curses.KEY_UP, UP);
    (curses.KEY_DOWN, DOWN);
    (curses.KEY_LEFT, LEFT);
    (curses.KEY_RIGHT, RIGHT);
    (ord "w", UP);
    (ord "W", UP);
    (ord "s", DOWN);
    (ord "S", DOWN);
    (ord "a", LEFT);
    (ord "A", LEFT);
    (ord "d", RIGHT);
    (ord "D", RIGHT)
  ].

Definition _handle_key (key : Z) : M unit :=
  match direction_map !! key with
  | Some new_direction =>
      current ← gets direction;
      if negb (is_opposite new_direction current)
         && negb (bool_decide (new_direction = current))
      then modify (set_next_direction new_direction);;
           modify (set_needs_redraw true)
      else mret tt
  | None =>
      if bool_decide (key = ord "p") || bool_decide (key = ord "P")
      then p ← gets paused;
           modify (set_paused (negb p));;
           modify (set_needs_redraw true)
      else if bool_decide (key = ord "q") || bool_decide (key = ord "Q")
      then modify (set_quit_requested true)
      else mret tt
  end.

(** [_process_input], over the successive results of [stdscr.getch()]:
    it drains them up to the first [-1].  (A [curses.error] out of [getch]
    ends the drain the same way, so a shorter list stands for it.) *)
Fixpoint _process_input (getch : list Z) : M unit :=
  match getch with
  | [] => mret tt
  | key :: rest =>
      if bool_decide (key = -1) then mret tt
      else if bool_decide (key = curses.KEY_RESIZE)
      then modify (set_needs_redraw true);; _process_input rest
      else _handle_key key;; _process_input rest
  end.

(** *** The tick *)

(** The wall test of [_update]. *)
Definition in_bounds (self : SnakeGame) (p : Point) : bool :=
  (0 <=? x p) && (x p <? width self) && (0 <=? y p) && (y p <? height self).

Definition _update (r : nat) : M GameState :=
  food0 ← gets food;
  match food0 with
  | None => mret WIN
  | Some food0 =>
      next ← gets next_direction;
      modify (set_direction next);;
      head ← snake_first;
      d ← gets direction;
      let '(dx, dy) := delta d in
      let new_head := translate head dx dy in
      inside ← gets (fun self => in_bounds self new_head);
      if negb inside then mret COLLISION
      else
        let growing := bool_decide (new_head = food0) in
        tail ← snake_last;
        occupied ← gets snake_positions;
        if bool_decide (new_head ∈ occupied)
           && negb (negb growing && bool_decide (new_head = tail))
        then mret COLLISION
        else
          (if negb growing
           then snake_pop;; snake_positions_remove tail
           else mret tt);;
          snake_appendleft new_head;;
          snake_positions_add new_head;;
          if growing
          then
            sc ← gets score;
            modify (set_score (sc + 1));;
            _spawn_food r;;
            food1 ← gets food;
            match food1 with
            | None => mret WIN
            | Some _ => modify (set_needs_redraw true);; mret RUNNING
            end
          else modify (set_needs_redraw true);; mret RUNNING
  end.

(** *** Frame clock *)

#[local] Set Warnings "-inexact-float".

(** The builtins [max(a, b)] and [min(a, b)] on floats: the second argument
    replaces the first only when it compares strictly greater (smaller). *)
Definition py_max (a b : float) : float := if (a <? b)%float then b else a.
Definition py_min (a b : float) : float := if (b <? a)%float then b else a.

(** [sleep_for] of one loop iteration of [_curses_main], from the time
    [elapsed] since the start of the iteration. *)
Definition sleep_for (self : SnakeGame) (elapsed : float) : float :=
  py_max 0 (py_min (frame_delay self / 2) (0.016 - elapsed))%float.

(** Whether the iteration calls [_update]. *)
Definition tick_due (self : SnakeGame) (now last_update : float) : bool :=
  negb (paused self) && (frame_delay self <=? now - last_update)%float.

(** *** Rendering *)

(** What drawing does to the outside: the calls on the curses window
    [stdscr], in order, and the sleep of [_ensure_window_size].  A drawing
    method is the list of calls it makes; the window size [(max_y, max_x)]
    that [stdscr.getmaxyx()] returns is taken as fixed during one [_draw]. *)
Inductive Call : Type :=
  | erase
  | refresh
  | addstr (y x : Z) (text : string) (attr : Z)
  | addch (y x : Z) (ch : ascii)
  | time_sleep (secs : float).

Definition board_offset_y : Z := 2.
Definition board_offset_x : Z := 2.

(** [str(n)] of an integer, [len(s)], and the slice [s[:n]] for [n >= 0]. *)
Definition str (n : Z) : string := pretty n.
Definition len (s : string) : Z := Z.of_nat (String.length s).
Definition slice_to (s : string) (n : Z) : string :=
  String.substring 0 (Z.to_nat n) s.

(** [range(a, b)] *)
Definition range2 (a b : Z) : list Z := (fun i => a + i) <$> range (b - a).

(** The [curses.error] that [addstr] and [addch] may raise is swallowed, so
    a guarded call is made or not, and that is all. *)
Definition _safe_addstr (size : Z * Z) (y x : Z) (text : string) (attr : Z)
    : list Call :=
  let '(max_y, max_x) := size in
  if (0 <=? y) && (y <? max_y) && (x <? max_x)
  then
    let truncated := slice_to text (Z.max 0 (max_x - x)) in
    match truncated with
    | EmptyString => []
    | String _ _ => [addstr y x truncated attr]
    end
  else [].

Definition _safe_addch (size : Z * Z) (y x : Z) (ch : ascii) : list Call :=
  let '(max_y, max_x) := size in
  if (0 <=? y) && (y <? max_y) && (0 <=? x) && (x <? max_x)
  then [addch y x ch]
  else [].

Definition _ensure_window_size (self : SnakeGame) (size : Z * Z)
    : bool * list Call :=
  let '(max_y, max_x) := size in
  let required_rows := board_offset_y + height self + 3 in
  let required_cols := board_offset_x + width self + 3 in
  if (max_y <? required_rows) || (max_x <? required_cols)
  then
    let warning :=
      "Terminal too small. Need at least " +:+ str required_cols +:+ "x"
      +:+ str required_rows +:+ ", current size is " +:+ str max_x +:+ "x"
      +:+ str max_y +:+ "." in
    (false,
     [erase]
     ++ _safe_addstr size (max_y `div` 2)
          (Z.max 0 ((max_x - len warning) `div` 2)) warning 0
     ++ [refresh; time_sleep 0.4])
  else (true, []).

Definition _draw_border (self : SnakeGame) (size : Z * Z) : list Call :=
  let top := board_offset_y - 1 in
  let left := board_offset_x - 1 in
  let bottom := top + height self + 1 in
  let right := left + width self + 1 in
  (x ← range2 left (right + 1);
   _safe_addch size top x "#" ++ _safe_addch size bottom x "#")
  ++ (y ← range2 (top + 1) bottom;
      _safe_addch size y left "#" ++ _safe_addch size y right "#").

Definition _draw_snake_and_food (self : SnakeGame) (size : Z * Z)
    : list Call :=
  mjoin (imap (fun index segment =>
           let char := (if bool_decide (index = 0%nat) then "@" else "O")%char in
           let y := board_offset_y + y segment in
           let x := board_offset_x + x segment in
           _safe_addch size y x char) (snake self))
  ++ match food self with
     | Some f =>
         let y := board_offset_y + y f in
         let x := board_offset_x + x f in
         _safe_addch size y x "*"
     | None => []
     end.

Definition _draw (self : SnakeGame) (size : Z * Z)
    (status_message : option string) : list Call :=
  let '(fits, warned) := _ensure_window_size self size in
  if negb fits then warned
  else
    let scoreboard := " Score: " +:+ str (score self) +:+ " " in
    let length_info :=
      " Length: " +:+ str (Z.of_nat (length (snake self))) +:+ " " in
    let status_message :=
      if paused self then Some "Paused - press 'p' to resume."
      else status_message in
    warned ++ [erase]
    ++ _safe_addstr size 0 2 scoreboard curses.A_REVERSE
    ++ _safe_addstr size 0 (len scoreboard + 4) length_info 0
    ++ match status_message with
       | Some (String _ _ as message) => _safe_addstr size 1 2 message 0
       | _ => []
       end
    ++ _draw_border self size
    ++ _draw_snake_and_food self size
    ++ _safe_addstr size (size.1 - 1) 2
         "Controls: Arrow keys/WASD move | P pause | Q quit" 0
    ++ [refresh].

(** *** The game loop *)

(** [_handle_game_end], on the engine: [getch] holds the keys the blocking
    [stdscr.getch()] returns one after the other; the result is [None] when
    they run out before an answer, the call still waiting.  (The prompt it
    draws and its [nodelay] switches act on the window alone.) *)
Fixpoint _handle_game_end (r : nat) (getch : list Z) : M (option bool) :=
  match getch with
  | [] => mret None
  | key :: rest =>
      if bool_decide (key = ord "q") || bool_decide (key = ord "Q")
      then modify (set_quit_requested true);; mret (Some false)
      else if bool_decide (key = ord "r") || bool_decide (key = ord "R")
      then _reset_game r;; mret (Some true)
      else _handle_game_end r rest
  end.

(** What one iteration of the loop of [_curses_main] reads from outside:
    the keys pending at [_process_input], the clock at its three readings
    ([start_loop], [now], and the one behind [elapsed]), the draw of a spawn
    in [_update], and, should the round end, the keys answering the prompt,
    the draw of the reset's spawn and the clock reading after it. *)
Record Readings : Type := mkReadings {
  pending_keys : list Z;
  start_loop : float;
  now : float;
  spawn_draw : nat;
  prompt_keys : list Z;
  reset_draw : nat;
  restart_time : float;
  end_time : float;
}.

(** How an iteration ends: on to the next one with the new [last_update]
    (having slept, when the idle time was positive), out of the loop by
    [break], or still waiting at the end-of-round prompt. *)
Inductive LoopCtl : Type :=
  | Continue (last_update : float) (slept : option float)
  | Break
  | Waiting.

(** The tail of an iteration: clear the redraw flag, compute the idle time,
    sleep when it is positive. *)
Definition loop_tail (last_update : float) (io : Readings) : M LoopCtl :=
  modify (set_needs_redraw false);;
  idle ← gets (fun self => sleep_for self (end_time io - start_loop io)%float);
  mret (Continue last_update
          (if (0 <? idle)%float then Some idle else None)).

(** One iteration of [while not self.quit_requested] in [_curses_main], on
    the engine (the calls of [_draw] act on the window alone). *)
Definition loop_body (last_update : float) (io : Readings) : M LoopCtl :=
  _process_input (pending_keys io);;
  quit ← gets quit_requested;
  if (quit : bool) then mret Break
  else
    due ← gets (fun self => tick_due self (now io) last_update);
    if (due : bool)
    then
      state ← _update (spawn_draw io);
      if bool_decide (state = COLLISION) || bool_decide (state = WIN)
      then
        again ← _handle_game_end (reset_draw io) (prompt_keys io);
        match again with
        | None => mret Waiting
        | Some false => mret Break
        | Some true => mret (Continue (restart_time io) None)
        end
      else loop_tail (now io) io
    else loop_tail last_update io.

(** ** The tick, step by step *)

(** The values [_update] computes on its way, as functions of the state the
    tick starts from. *)

(** [self] after [self.direction = self.next_direction]. *)
Definition commit (self : SnakeGame) : SnakeGame :=
  set_direction (next_direction self) self.

(** [new_head] for a snake whose head is [head]. *)
Definition step_head (self : SnakeGame) (head : Point) : Point :=
  let '(dx, dy) := delta (next_direction self) in translate head dx dy.

(** [self.snake[-1]] of a snake [head :: rest]. *)
Definition tail_of (head : Point) (rest : list Point) : Point :=
  default head (last (head :: rest)).

(** The self-collision test of [_update]. *)
Definition self_hit (self : SnakeGame) (food0 new_head tail : Point) : bool :=
  bool_decide (new_head ∈ snake_positions self)
  && negb (negb (bool_decide (new_head = food0)) && bool_decide (new_head = tail)).

(** The body after a non-growing move: tail dropped, then head added. *)
Definition moved (new_head tail : Point) (self : SnakeGame) : SnakeGame :=
  set_snake_positions ({[new_head]} ∪ (snake_positions self ∖ {[tail]}))
    (set_snake (new_head :: removelast (snake self)) (commit self)).

(** The body and score after a growing move, before the spawn. *)
Definition grown (new_head : Point) (self : SnakeGame) : SnakeGame :=
  set_score (score self + 1)
    (set_snake_positions ({[new_head]} ∪ snake_positions self)
       (set_snake (new_head :: snake self) (commit self))).

(** The returning ticks as a relation: one constructor per [return] of
    [_update]. *)
Inductive tick (r : nat) (self : SnakeGame) : GameState -> SnakeGame -> Prop :=
  | tick_full :
      food self = None ->
      tick r self WIN self
  | tick_wall food0 head rest :
      food self = Some food0 ->
      snake self = head :: rest ->
      in_bounds self (step_head self head) = false ->
      tick r self COLLISION (commit self)
  | tick_bite food0 head rest :
      food self = Some food0 ->
      snake self = head :: rest ->
      in_bounds self (step_head self head) = true ->
      self_hit self food0 (step_head self head) (tail_of head rest) = true ->
      tick r self COLLISION (commit self)
  | tick_eat_win head rest self' :
      food self = Some (step_head self head) ->
      snake self = head :: rest ->
      in_bounds self (step_head self head) = true ->
      step_head self head ∉ snake_positions self ->
      self' = state_of (_spawn_food r (grown (step_head self head) self)) ->
      food self' = None ->
      tick r self WIN self'
  | tick_eat_run head rest self' :
      food self = Some (step_head self head) ->
      snake self = head :: rest ->
      in_bounds self (step_head self head) = true ->
      step_head self head ∉ snake_positions self ->
      self' = state_of (_spawn_food r (grown (step_head self head) self)) ->
      is_Some (food self') ->
      tick r self RUNNING (set_needs_redraw true self')
  | tick_move food0 head rest :
      food self = Some food0 ->
      snake self = head :: rest ->
      in_bounds self (step_head self head) = true ->
      step_head self head ≠ food0 ->
      (step_head self head ∉ snake_positions self
       ∨ step_head self head = tail_of head rest) ->
      tail_of head rest ∈ snake_positions self ->
      tick r self RUNNING
        (set_needs_redraw true
           (moved (step_head self head) (tail_of head rest) self)).

(** Whether the tick that starts in [self] is a growing one: the food is
    there and the new head lands on it. *)
Definition growing (self : SnakeGame) : bool :=
  match food self, snake self with
  | Some food0, head :: _ => bool_decide (step_head self head = food0)
  | _, _ => false
  end.

(** ** The reset, step by step *)

(** [self] after the assignments of [_reset_game], before it spawns food. *)
Definition placed (self : SnakeGame) : SnakeGame :=
  let mid_x := width self `div` 2 in
  let mid_y := height self `div` 2 in
  let body := [mkPoint mid_x mid_y; mkPoint (mid_x - 1) mid_y;
               mkPoint (mid_x - 2) mid_y] in
  mkSnakeGame (width self) (height self) (speed self) (frame_delay self)
    body (list_to_set body) RIGHT RIGHT (food self) 0 false false true.

(** ** The spec's [advance] *)

(** [advance(new_head, growing)] on the pair of body sequence and companion
    set, in the order the specification words it: prepend [new_head] to the
    sequence and the set; then, if not growing, remove the current tail from
    the sequence and unset it in the set. *)
Definition spec_advance (new_head : Point) (growing : bool)
    (body : list Point * gset Point) : list Point * gset Point :=
  let sequence := new_head :: body.1 in
  let occupied := {[new_head]} ∪ body.2 in
  if growing then (sequence, occupied)
  else match last sequence with
       | Some tail => (removelast sequence, occupied ∖ {[tail]})
       | None => (sequence, occupied)
       end.

(** ** Reachable states *)

(** What the loop of [_curses_main] does to the engine: a reset (the first
    one, or a replay after a game end), a tick, or an input. *)
Inductive reachable : SnakeGame -> Prop :=
  | reach_reset (r : nat) (self : SnakeGame) :
      reachable (state_of (_reset_game r self))
  | reach_update (r : nat) (self : SnakeGame) :
      reachable self -> reachable (state_of (_update r self))
  | reach_key (key : Z) (self : SnakeGame) :
      reachable self -> reachable (state_of (_handle_key key self))
  | reach_input (getch : list Z) (self : SnakeGame) :
      reachable self -> reachable (state_of (_process_input getch self)).

(** The snake's representation invariant: the companion set holds exactly
    the points of the body, and the body repeats no point. *)
Definition body_ok (self : SnakeGame) : Prop :=
  snake_positions self = list_to_set (snake self) ∧ NoDup (snake self).

(** ** Play *)

(** The states of one round: like [reachable], but a tick that returned
    COLLISION ends the round, as the loop of [_curses_main] has it (it
    resets or quits next). *)
Inductive playing : SnakeGame -> Prop :=
  | play_reset (r : nat) (self : SnakeGame) :
      playing (state_of (_reset_game r self))
  | play_update (r : nat) (self self' : SnakeGame) (st : GameState) :
      playing self -> _update r self = Ok st self' -> st ≠ COLLISION ->
      playing self'
  | play_key (key : Z) (self : SnakeGame) :
      playing self -> playing (state_of (_handle_key key self))
  | play_input (getch : list Z) (self : SnakeGame) :
      playing self -> playing (state_of (_process_input getch self)).

(** Two cells that share a side. *)
Definition adjacent (p q : Point) : Prop :=
  Z.abs (x p - x q) + Z.abs (y p - y q) = 1.

(** A body whose successive segments are adjacent. *)
Fixpoint connected (l : list Point) : Prop :=
  match l with
  | p :: (q :: _) as l' => adjacent p q ∧ connected l'
  | _ => True
  end.

(** The attributes an input never touches. *)
Definition same_board (self self' : SnakeGame) : Prop :=
  width self' = width self ∧ height self' = height self
  ∧ speed self' = speed self ∧ frame_delay self' = frame_delay self
  ∧ snake self' = snake self ∧ snake_positions self' = snake_positions self
  ∧ direction self' = direction self ∧ food self' = food self
  ∧ score self' = score self.

(** The food, when there is one, is a free cell of the board. *)
Definition food_ok (self : SnakeGame) : Prop :=
  ∀ f, food self = Some f ->
    in_bounds self f = true ∧ f ∉ snake_positions self.

(** The snake heads the way it last moved, and the pending direction does
    not reverse it. *)
Definition heading_ok (self : SnakeGame) : Prop :=
  is_opposite (next_direction self) (direction self) = false
  ∧ ∀ head neck rest, snake self = head :: neck :: rest ->
      head = translate neck (delta (direction self)).1 (delta (direction self)).2.

(** Whether a tick from [self] returns without ending the round. *)
Definition ticks_on (r : nat) (self : SnakeGame) : bool :=
  match _update r self with
  | Ok COLLISION _ | Raise _ _ => false
  | Ok _ _ => true
  end.

(** Every cell of the board, row by row. *)
Definition all_cells (self : SnakeGame) : list Point :=
  y ← range (height self);
  x ← range (width self);
  [mkPoint x y].

(** The keys that answer the end-of-round prompt. *)
Definition answers_prompt (key : Z) : Prop :=
  key = ord "q" ∨ key = ord "Q" ∨ key = ord "r" ∨ key = ord "R".

(** A call that stays inside a window of the given size: a character on
    one of its cells, a non-empty text on one of its rows that starts at or
    after the left edge and ends at or before the right one. *)
Definition within (size : Z * Z) (c : Call) : Prop :=
  match c with
  | addch y x _ => 0 <= y < size.1 ∧ 0 <= x < size.2
  | addstr y x text _ =>
      0 <= y < size.1 ∧ 0 <= x ∧ text ≠ EmptyString ∧ x + len text <= size.2
  | _ => True
  end.

(** The picture of the board: which character belongs on which cell of the
    window.  The border runs around rows 1..height+2 and columns
    1..width+2; a board cell (x, y) sits at row 2+y, column 2+x. *)
Definition shown (self : SnakeGame) (cy cx : Z) (ch : ascii) : Prop :=
  (ch = "#"%char
   ∧ (((cy = 1 ∨ cy = height self + 2) ∧ 1 <= cx <= width self + 2)
      ∨ ((cx = 1 ∨ cx = width self + 2) ∧ 2 <= cy <= height self + 1)))
  ∨ (∃ i p, snake self !! i = Some p
       ∧ cy = 2 + y p ∧ cx = 2 + x p
       ∧ ch = (if bool_decide (i = 0%nat) then "@" else "O")%char)
  ∨ (∃ f, food self = Some f ∧ cy = 2 + y f ∧ cx = 2 + x f ∧ ch = "*"%char).

(** The window is large enough for [_ensure_window_size]. *)
Definition fits (self : SnakeGame) (size : Z * Z) : Prop :=
  board_offset_y + height self + 3 <= size.1
  ∧ board_offset_x + width self + 3 <= size.2.

(** ** Concrete engines *)

(** The 10x10 engine at 10 frames per second, as [__init__] builds it. *)
Definition new10 : SnakeGame :=
  mkSnakeGame 10 10 10 (1 / 10)%float [] ∅ RIGHT RIGHT None 0 false false true.

(** A four-segment snake coiled in a 2x2 square, about to step DOWN onto
    its own tail. *)
Definition coiled : SnakeGame :=
  let body := [mkPoint 5 4; mkPoint 6 4; mkPoint 6 5; mkPoint 5 5] in
  mkSnakeGame 10 10 10 (1 / 10)%float body (list_to_set body) LEFT DOWN
    (Some (mkPoint 0 0)) 1 false false true.

(** [coiled] one tick later: the head on the cell the tail has left. *)
Definition uncoiled : SnakeGame :=
  let body := [mkPoint 5 5; mkPoint 5 4; mkPoint 6 4; mkPoint 6 5] in
  mkSnakeGame 10 10 10 (1 / 10)%float body (list_to_set body) DOWN DOWN
    (Some (mkPoint 0 0)) 1 false false true.

(** A five-segment snake about to turn DOWN into its own fourth segment. *)
Definition hooked : SnakeGame :=
  let body := [mkPoint 5 4; mkPoint 6 4; mkPoint 6 5; mkPoint 5 5;
               mkPoint 4 5] in
  mkSnakeGame 10 10 10 (1 / 10)%float body (list_to_set body) LEFT DOWN
    (Some (mkPoint 0 0)) 2 false false true.

(** A 10x10 board filled by a 99-segment snake that winds row by row from
    its tail at (0,0) to its head at (1,9); the food is on the one free
    cell, (0,9), straight ahead. *)
Definition packed : SnakeGame :=
  let path := y ← range 10;
              (fun x => mkPoint x y)
                <$> (if Z.even y then range 10 else reverse (range 10)) in
  let body := drop 1 (reverse path) in
  mkSnakeGame 10 10 10 (1 / 10)%float body (list_to_set body) LEFT LEFT
    (Some (mkPoint 0 9)) 96 false false true.

(** ** A full game *)

(** A closed tour of the 10x10 board: down the left column, then row by
    row back up, odd rows rightwards and even rows leftwards, the top row
    leading home. *)
Definition cycle_dir (p : Point) : Direction :=
  if x p =? 0 then (if y p =? 9 then RIGHT else DOWN)
  else if y p =? 0 then LEFT
  else if Z.odd (y p) then (if x p =? 9 then UP else RIGHT)
  else (if x p =? 1 then UP else LEFT).

Definition key_of (d : Direction) : Z :=
  match d with
  | UP => ord "w" | DOWN => ord "s" | LEFT => ord "a" | RIGHT => ord "d"
  end.

(** One round of a player who steers along the tour: the key for the
    head's cell, then a tick (the spawn always drawing 0). *)
Definition autoplay_step (self : SnakeGame) : SnakeGame :=
  match snake self with
  | head :: _ =>
      state_of (_update 0
        (state_of (_handle_key (key_of (cycle_dir head)) self)))
  | [] => self
  end.

(** The engine 1658 rounds into that game: 99 segments, one cell free. *)
Definition nearly_won : SnakeGame :=
  Nat.iter 1658 autoplay_step (state_of (_reset_game 0 new10)).

(** The readings of an iteration one second after the last tick, with no
    key pending, and an [x] and then an [r] typed at the prompt. *)
Definition crash_io : Readings :=
  mkReadings [] 1 1 0 [ord "x"; ord "r"] 0 2 1.

(** * Properties *)

Lemma _update_unfold (r : nat) (self : SnakeGame) :
  _update r self =
  match food self with
  | None => Ok WIN self
  | Some food0 =>
      match snake self with
      | [] => Raise IndexError (commit self)
      | head :: rest =>
          let new_head := step_head self head in
          let tail := tail_of head rest in
          if negb (in_bounds self new_head) then Ok COLLISION (commit self)
          else if self_hit self food0 new_head tail
          then Ok COLLISION (commit self)
          else if bool_decide (new_head = food0)
          then
            let self' := state_of (_spawn_food r (grown new_head self)) in
            match food self' with
            | None => Ok WIN self'
            | Some _ => Ok RUNNING (set_needs_redraw true self')
            end
          else if decide (tail ∈ snake_positions self)
          then Ok RUNNING (set_needs_redraw true (moved new_head tail self))
          else Raise (KeyError tail)
                 (set_snake (removelast (snake self)) (commit self))
      end
  end.
Proof.
  unfold _update, mbind, M_bind, gets, modify, mret, M_ret.
  destruct (food self) as [food0|] eqn:Hfood; [|done].
  unfold snake_first. cbn [snake set_direction].
  destruct (snake self) as [|head rest] eqn:Hsnake; [done|].
  unfold step_head. cbn [direction set_direction].
  destruct (delta (next_direction self)) as [dx dy] eqn:Hd.
  set (new_head := translate head dx dy). cbv zeta.
  change (in_bounds (set_direction (next_direction self) self) new_head)
    with (in_bounds self new_head).
  destruct (in_bounds self new_head); cbn [negb]; [|done].
  unfold snake_last, self_hit, tail_of. cbn [snake set_direction].
  rewrite Hsnake.
  destruct (last (head :: rest)) as [tail|] eqn:Hlast.
  2:{ by apply last_None in Hlast. }
  cbn [default snake_positions set_direction]. unfold id.
  destruct (bool_decide (new_head ∈ snake_positions self) && _); [done|].
  destruct (bool_decide (new_head = food0)); cbn [negb].
  - unfold snake_appendleft, snake_positions_add, modify, _spawn_food.
    cbn [state_of].
    change (set_score _ (set_snake_positions _ (set_snake _ _)))
      with (grown new_head self).
    by destruct (food (set_food _ _)).
  - unfold snake_pop. cbn [snake set_direction]. rewrite Hsnake, Hlast.
    unfold snake_positions_remove. cbn [snake_positions set_snake set_direction].
    destruct (decide (tail ∈ snake_positions self)); [|done].
    unfold snake_appendleft, snake_positions_add, modify, moved, commit.
    rewrite Hsnake. reflexivity.
Qed.

Lemma self_hit_false (self : SnakeGame) (food0 new_head tail : Point) :
  self_hit self food0 new_head tail = false <->
  new_head ∉ snake_positions self ∨ (new_head ≠ food0 ∧ new_head = tail).
Proof.
  unfold self_hit.
  rewrite andb_false_iff, negb_false_iff, andb_true_iff, negb_true_iff.
  rewrite !bool_decide_eq_false, bool_decide_eq_true. tauto.
Qed.

Lemma self_hit_true (self : SnakeGame) (food0 new_head tail : Point) :
  self_hit self food0 new_head tail = true <->
  new_head ∈ snake_positions self ∧ ¬ (new_head ≠ food0 ∧ new_head = tail).
Proof.
  rewrite <- not_false_iff_true, self_hit_false.
  destruct (decide (new_head ∈ snake_positions self)); tauto.
Qed.

(** [_update] returns exactly along [tick]. *)
Lemma _update_tick (r : nat) (self : SnakeGame) (st : GameState)
    (self' : SnakeGame) :
  _update r self = Ok st self' <-> tick r self st self'.
Proof.
  rewrite _update_unfold. split.
  - destruct (food self) as [food0|] eqn:Hfood.
    2:{ intros [= <- <-]. by constructor. }
    destruct (snake self) as [|head rest] eqn:Hsnake; [done|]. cbv zeta.
    destruct (in_bounds self _) eqn:Hin; cbn [negb].
    2:{ intros [= <- <-]. by eapply tick_wall. }
    destruct (self_hit self _ _ _) eqn:Hhit.
    { intros [= <- <-]. by eapply tick_bite. }
    apply self_hit_false in Hhit.
    case_bool_decide as Hgrow.
    + assert (step_head self head ∉ snake_positions self) by tauto.
      rewrite <- Hgrow in Hfood.
      destruct (food (state_of _)) eqn:Hfood'; intros [= <- <-].
      * by eapply tick_eat_run.
      * by eapply tick_eat_win.
    + destruct (decide _); [|done]. intros [= <- <-].
      eapply tick_move; eauto. tauto.
  - destruct 1 as [Hfood|food0 head rest Hfood Hsnake Hin
      |food0 head rest Hfood Hsnake Hin Hhit
      |head rest s Hfood Hsnake Hin Hfree -> Hnone
      |head rest s Hfood Hsnake Hin Hfree -> [p Hsome]
      |food0 head rest Hfood Hsnake Hin Hne Hfree Htail];
      rewrite Hfood; [done|rewrite Hsnake; cbv zeta; rewrite Hin; cbn [negb]..].
    + done.
    + by rewrite Hhit.
    + replace (self_hit _ _ _ _) with false
        by (symmetry; apply self_hit_false; tauto).
      rewrite bool_decide_eq_true_2 by done. by rewrite Hnone.
    + replace (self_hit _ _ _ _) with false
        by (symmetry; apply self_hit_false; tauto).
      rewrite bool_decide_eq_true_2 by done. by rewrite Hsome.
    + replace (self_hit _ _ _ _) with false
        by (symmetry; apply self_hit_false; tauto).
      rewrite bool_decide_eq_false_2 by done.
      by rewrite decide_True.
Qed.

(** ** Concrete runs *)

Example new10_init : __init__ 10 10 10 = inr new10.
Proof. reflexivity. Qed.

(** [coiled] arises in play: reset with the food right of the head, eat it,
    then turn up, left and request down. *)
Example coiled_reachable :
  (_reset_game 53;; _update 0;; _handle_key (ord "w");; _update 0;;
   _handle_key (ord "a");; _update 0;; _handle_key (ord "s")) new10
  = Ok tt coiled.
Proof. vm_compute. reflexivity. Qed.

(** ** Input handling, unfolded *)

(** Unfolds the monadic plumbing of a method body. *)
Ltac run_method :=
  unfold mbind, M_bind, mret, M_ret, gets, modify; cbv beta.

(** [_handle_key] never raises, and touches only the pending direction, the
    pause and quit flags and the redraw flag. *)
Lemma _handle_key_unfold (key : Z) (self : SnakeGame) :
  _handle_key key self =
  Ok tt
    match direction_map !! key with
    | Some new_direction =>
        if negb (is_opposite new_direction (direction self))
           && negb (bool_decide (new_direction = direction self))
        then set_needs_redraw true (set_next_direction new_direction self)
        else self
    | None =>
        if bool_decide (key = ord "p") || bool_decide (key = ord "P")
        then set_needs_redraw true (set_paused (negb (paused self)) self)
        else if bool_decide (key = ord "q") || bool_decide (key = ord "Q")
        then set_quit_requested true self
        else self
    end.
Proof.
  unfold _handle_key. run_method. repeat case_match; done.
Qed.

Lemma _spawn_food_unfold (r : nat) (self : SnakeGame) :
  _spawn_food r self
  = Ok tt (set_food (food (state_of (_spawn_food r self))) self).
Proof. reflexivity. Qed.

Lemma _reset_game_unfold (r : nat) (self : SnakeGame) :
  _reset_game r self = _spawn_food r (placed self).
Proof. reflexivity. Qed.

(** ** The self-collision rule *)

(** C1. On a running engine (food present, snake [head :: rest]) whose new
    head is in bounds and in the occupied set, the tick returns COLLISION,
    leaving the body alone, unless the tick is not growing and the new head
    is the current tail; in that case it returns RUNNING and the snake has
    moved: new head in front, old tail dropped. *)
Theorem C1_self_collision_rule (r : nat) (self : SnakeGame)
    (food0 head : Point) (rest : list Point) :
  food self = Some food0 ->
  snake self = head :: rest ->
  let new_head := step_head self head in
  let tail := tail_of head rest in
  in_bounds self new_head = true ->
  new_head ∈ snake_positions self ->
  (¬ (new_head ≠ food0 ∧ new_head = tail) ->
     _update r self = Ok COLLISION (commit self))
  ∧ (new_head ≠ food0 ∧ new_head = tail ->
     ∃ self', _update r self = Ok RUNNING self'
       ∧ snake self' = new_head :: removelast (snake self)
       ∧ snake_positions self'
         = {[new_head]} ∪ (snake_positions self ∖ {[tail]})).
Proof.
  intros Hfood Hsnake new_head tail Hin Hocc. split.
  - intros Hrule. apply _update_tick.
    eapply tick_bite; eauto. by apply self_hit_true.
  - intros [Hne Htail]. eexists. split; [|split].
    + apply _update_tick. eapply tick_move; eauto.
      fold tail. by rewrite <- Htail.
    + reflexivity.
    + reflexivity.
Qed.

Lemma C1_witness :
  ∃ self', _update 0 coiled = Ok RUNNING self'
    ∧ snake self' = mkPoint 5 5 :: removelast (snake coiled)
    ∧ snake_positions self'
      = {[mkPoint 5 5]} ∪ (snake_positions coiled ∖ {[mkPoint 5 5]}).
Proof.
  refine (proj2 (C1_self_collision_rule 0 coiled (mkPoint 0 0) (mkPoint 5 4)
    [mkPoint 6 4; mkPoint 6 5; mkPoint 5 5] _ _ _ _) _).
  - reflexivity.
  - reflexivity.
  - reflexivity.
  - vm_compute. reflexivity.
  - split; [discriminate | reflexivity].
Defined.

Example coiled_uncoils : _update 0 coiled = Ok RUNNING uncoiled.
Proof. vm_compute. reflexivity. Qed.

(** The other side of the rule, run: stepping into the fourth segment. *)
Example hooked_collides : _update 0 hooked = Ok COLLISION (commit hooked).
Proof. vm_compute. reflexivity. Qed.

(** ** Frame of a colliding tick *)

(** C9. A tick that returns COLLISION has only committed the pending
    direction: body, occupied set, food, score and every other attribute
    are those of the state it started from. *)
Theorem C9_collision_frame (r : nat) (self self' : SnakeGame) :
  _update r self = Ok COLLISION self' ->
  self' = set_direction (next_direction self) self
  ∧ snake self' = snake self
  ∧ snake_positions self' = snake_positions self
  ∧ food self' = food self
  ∧ score self' = score self.
Proof.
  intros Hup. apply _update_tick in Hup.
  inversion Hup; subst; by repeat split.
Qed.

Lemma C9_witness :
  commit hooked = set_direction (next_direction hooked) hooked
  ∧ snake (commit hooked) = snake hooked
  ∧ snake_positions (commit hooked) = snake_positions hooked
  ∧ food (commit hooked) = food hooked
  ∧ score (commit hooked) = score hooked.
Proof.
  apply (C9_collision_frame 0 hooked (commit hooked)).
  vm_compute. reflexivity.
Defined.

(** ** Length and score *)

Lemma length_removelast_cons {A} (a : A) (l : list A) :
  length (removelast (a :: l)) = length l.
Proof.
  revert a. induction l as [|b l IH]; intros a; [done|].
  change (removelast (a :: b :: l)) with (a :: removelast (b :: l)).
  cbn [length]. by rewrite IH.
Qed.



(** ** The body invariant *)

Section Invariant.

Implicit Types (self : SnakeGame) (p : Point) (l : list Point).

Lemma snake_split (head : Point) (rest : list Point) :
  ∃ front, head :: rest = front ++ [tail_of head rest]
           ∧ removelast (head :: rest) = front.
Proof.
  unfold tail_of.
  destruct (last (head :: rest)) as [t|] eqn:Hlast.
  - apply last_Some in Hlast as [front Hfront]. exists front.
    split; [done|]. rewrite Hfront. apply removelast_last.
  - by apply last_None in Hlast.
Qed.

Lemma tail_of_occupied self (head : Point) (rest : list Point) :
  body_ok self -> snake self = head :: rest ->
  tail_of head rest ∈ snake_positions self.
Proof.
  intros [Hset _] Hsnake. rewrite Hset, Hsnake.
  destruct (snake_split head rest) as (front & Hfront & _).
  rewrite elem_of_list_to_set, Hfront. set_solver.
Qed.

Lemma body_ok_frame self self' :
  snake self' = snake self ->
  snake_positions self' = snake_positions self ->
  body_ok self -> body_ok self'.
Proof. unfold body_ok. by intros -> ->. Qed.

Lemma body_ok_moved self (head : Point) (rest : list Point) (p : Point) :
  body_ok self -> snake self = head :: rest ->
  p ∉ snake_positions self ∨ p = tail_of head rest ->
  body_ok (moved p (tail_of head rest) self).
Proof.
  intros [Hset Hnodup] Hsnake Hfree.
  destruct (snake_split head rest) as (front & Hfront & Hremove).
  rewrite <- Hsnake in Hfront, Hremove.
  rewrite Hset in Hfree. unfold body_ok, moved. cbn.
  rewrite Hset, Hremove. rewrite Hfront in Hnodup, Hfree |- *.
  apply NoDup_app in Hnodup as (Hfront_nodup & Hdisj & _).
  assert (tail_of head rest ∉ front) as Htail by set_solver.
  split.
  - rewrite list_to_set_app_L. set_solver.
  - apply NoDup_cons. split; [|done].
    destruct Hfree as [Hfree| ->]; [|done].
    rewrite elem_of_list_to_set in Hfree. set_solver.
Qed.

Lemma body_ok_grown self (p : Point) :
  body_ok self -> p ∉ snake_positions self -> body_ok (grown p self).
Proof.
  intros [Hset Hnodup] Hfree. unfold body_ok, grown. cbn.
  rewrite Hset in Hfree |- *. split; [done|].
  apply NoDup_cons. by rewrite elem_of_list_to_set in Hfree.
Qed.

Lemma body_ok_reset (r : nat) self : body_ok (state_of (_reset_game r self)).
Proof.
  unfold body_ok. cbn. split; [done|].
  repeat (apply NoDup_cons; split);
    [rewrite !elem_of_cons, elem_of_nil | rewrite elem_of_cons, elem_of_nil
    | apply not_elem_of_nil | apply NoDup_nil_2].
  - intros [[=]|[[=]|[]]]; lia.
  - intros [[=]|[]]; lia.
Qed.

Lemma body_ok_handle_key (key : Z) self :
  body_ok self -> body_ok (state_of (_handle_key key self)).
Proof.
  rewrite _handle_key_unfold.
  apply body_ok_frame; cbn [state_of]; repeat case_match; done.
Qed.

Lemma body_ok_process_input (getch : list Z) self :
  body_ok self -> body_ok (state_of (_process_input getch self)).
Proof.
  revert self. induction getch as [|key rest IH]; intros self Hok; [done|].
  cbn [_process_input]. case_bool_decide; [done|].
  case_bool_decide.
  - apply (IH (set_needs_redraw true self)). revert Hok. by apply body_ok_frame.
  - unfold mbind, M_bind.
    pose proof (body_ok_handle_key key self Hok) as Hkey.
    destruct (_handle_key key self) as [[] s|e s] eqn:Hk; [by apply IH|done].
Qed.

Lemma body_ok_update (r : nat) self :
  body_ok self -> body_ok (state_of (_update r self)).
Proof.
  intros Hok. rewrite _update_unfold.
  destruct (food self) as [food0|] eqn:Hfood; [|done].
  destruct (snake self) as [|head rest] eqn:Hsnake; [done|]. cbv zeta.
  destruct (in_bounds self _); cbn [negb]; [|done].
  destruct (self_hit self _ _ _) eqn:Hhit; [done|].
  apply self_hit_false in Hhit.
  case_bool_decide as Hgrow.
  - assert (body_ok (grown (step_head self head) self)) as Hgrown.
    { apply body_ok_grown; [done|]. tauto. }
    by destruct (food (state_of _)).
  - rewrite decide_True by by eapply tail_of_occupied.
    apply (body_ok_moved self head rest); [done..|]. tauto.
Qed.

End Invariant.

(** C2. In every state reached from a reset by ticks and inputs, the
    companion set is exactly the set of points of the body sequence, and
    the body sequence has no duplicate point. *)
Theorem C2_body_invariant (self : SnakeGame) :
  reachable self ->
  snake_positions self = list_to_set (snake self) ∧ NoDup (snake self).
Proof.
  induction 1 as [r self|r self _ IH|key self _ IH|getch self _ IH].
  - apply body_ok_reset.
  - by apply body_ok_update.
  - by apply body_ok_handle_key.
  - by apply body_ok_process_input.
Qed.

(** In play the snake is never empty, so a tick never raises: neither
    [self.snake[0]] nor [self.snake_positions.remove(tail)] can fail. *)
Lemma reachable_nonempty (self : SnakeGame) :
  reachable self -> body_ok self ∧ snake self ≠ [].
Proof.
  induction 1 as [r self|r self _ [IH Hne]|key self _ [IH Hne]
    |getch self _ [IH Hne]].
  - split; [apply body_ok_reset|done].
  - split; [by apply body_ok_update|].
    rewrite _update_unfold.
    destruct (food self); [|done].
    destruct (snake self) as [|head rest] eqn:Hsnake; [done|]. cbv zeta.
    rewrite (decide_True _ _ (tail_of_occupied self head rest IH Hsnake)).
    repeat case_match; cbn; congruence.
  - split; [by apply body_ok_handle_key|].
    rewrite _handle_key_unfold. cbn [state_of]. by repeat case_match.
  - split; [by apply body_ok_process_input|].
    clear IH. revert self Hne.
    induction getch as [|key rest IHg]; intros self Hne; [done|].
    cbn [_process_input]. repeat case_bool_decide; [done|by apply IHg|].
    unfold mbind, M_bind. rewrite _handle_key_unfold. apply IHg.
    by repeat case_match.
Qed.

Lemma reachable_update_returns (r : nat) (self : SnakeGame) :
  reachable self -> ∃ st self', _update r self = Ok st self'.
Proof.
  intros [Hok Hne]%reachable_nonempty. rewrite _update_unfold.
  destruct (food self); [|eauto].
  destruct (snake self) as [|head rest] eqn:Hsnake; [done|]. cbv zeta.
  rewrite (decide_True _ _ (tail_of_occupied self head rest Hok Hsnake)).
  repeat case_match; eauto.
Qed.

Lemma coiled_in_play : reachable coiled.
Proof.
  replace coiled with
    (state_of (_handle_key (ord "s")
      (state_of (_update 0
        (state_of (_handle_key (ord "a")
          (state_of (_update 0
            (state_of (_handle_key (ord "w")
              (state_of (_update 0
                (state_of (_reset_game 53 new10))))))))))))))
    by (vm_compute; reflexivity).
  apply reach_key, reach_update, reach_key, reach_update, reach_key,
    reach_update, reach_reset.
Qed.

Lemma C2_witness :
  snake_positions coiled = list_to_set (snake coiled) ∧ NoDup (snake coiled).
Proof. exact (C2_body_invariant coiled coiled_in_play). Defined.

(** ** Construction *)

(** C8. Construction fails exactly when the width or the height is below
    10 or the speed is outside 1..30, and succeeds exactly on in-range
    arguments; a failure yields the exception alone and no engine, a
    success the engine with an empty snake and no food.  (The exception the
    code raises for a bad configuration is Python's [ValueError].) *)
Theorem C8_construction (w h s : Z) :
  ((∃ msg, __init__ w h s = inl (ValueError msg))
     <-> w < 10 ∨ h < 10 ∨ s < 1 ∨ 30 < s)
  ∧ ((∃ self, __init__ w h s = inr self)
     <-> 10 <= w ∧ 10 <= h ∧ 1 <= s <= 30)
  ∧ (∀ self, __init__ w h s = inr self ->
       width self = w ∧ height self = h ∧ speed self = s
       ∧ snake self = [] ∧ snake_positions self = ∅ ∧ food self = None
       ∧ score self = 0).
Proof.
  unfold __init__.
  destruct (Z.ltb_spec w 10), (Z.ltb_spec h 10), (Z.ltb_spec s 1),
    (Z.gtb_spec s 30); cbn [orb];
    (split; [|split]);
    try (split; [intros [? [=]] | intros ?]; (lia || eauto));
    try (intros ? [=]); subst; cbn; try done.
Qed.

Example speed_31_refused :
  __init__ 30 18 31
  = inl (ValueError "Speed must be between 1 and 30 frames per second.").
Proof. reflexivity. Qed.

Example width_9_refused :
  __init__ 9 18 10 = inl (ValueError "Width and height must be at least 10.").
Proof. reflexivity. Qed.

(** ** Reset *)

(** C7. On a board of width and height at least 10, a reset returns with a
    snake of exactly three segments in the middle row, the head at the
    middle column and the two others to its left; both directions are
    RIGHT, the score is 0, every segment is in bounds and no two
    coincide. *)
Theorem C7_reset_placement (r : nat) (self : SnakeGame) :
  10 <= width self ->
  10 <= height self ->
  let mid_x := width self `div` 2 in
  let mid_y := height self `div` 2 in
  ∃ self', _reset_game r self = Ok tt self'
    ∧ snake self' = [mkPoint mid_x mid_y; mkPoint (mid_x - 1) mid_y;
                     mkPoint (mid_x - 2) mid_y]
    ∧ width self - 1 <= 2 * mid_x <= width self
    ∧ height self - 1 <= 2 * mid_y <= height self
    ∧ direction self' = RIGHT
    ∧ next_direction self' = RIGHT
    ∧ score self' = 0
    ∧ Forall (fun p => in_bounds self' p = true) (snake self')
    ∧ NoDup (snake self').
Proof.
  intros Hw Hh mid_x mid_y.
  pose proof (Z.div_mod (width self) 2 ltac:(lia)) as Hx.
  pose proof (Z.mod_pos_bound (width self) 2 ltac:(lia)) as Hx'.
  pose proof (Z.div_mod (height self) 2 ltac:(lia)) as Hy.
  pose proof (Z.mod_pos_bound (height self) 2 ltac:(lia)) as Hy'.
  fold mid_x in Hx. fold mid_y in Hy.
  eexists. split; [by rewrite _reset_game_unfold, _spawn_food_unfold|].
  cbn. fold mid_x mid_y. repeat split; try lia.
  - repeat constructor; unfold in_bounds; cbn; lia.
  - apply (body_ok_reset r self).
Qed.

Lemma C7_witness :
  ∃ self', _reset_game 53 new10 = Ok tt self'
    ∧ snake self' = [mkPoint 5 5; mkPoint 4 5; mkPoint 3 5]
    ∧ 10 - 1 <= 2 * 5 <= 10
    ∧ 10 - 1 <= 2 * 5 <= 10
    ∧ direction self' = RIGHT
    ∧ next_direction self' = RIGHT
    ∧ score self' = 0
    ∧ Forall (fun p => in_bounds self' p = true) (snake self')
    ∧ NoDup (snake self').
Proof. apply (C7_reset_placement 53 new10); cbn; lia. Defined.

(** ** Food spawning *)

Lemma elem_of_range (n z : Z) : z ∈ range n <-> 0 <= z < n.
Proof.
  unfold range. rewrite list_elem_of_fmap. setoid_rewrite elem_of_seq. split.
  - intros (k & -> & Hk). lia.
  - intros Hz. exists (Z.to_nat z). lia.
Qed.

Lemma elem_of_empty_cells (self : SnakeGame) (p : Point) :
  p ∈ empty_cells self
  <-> in_bounds self p = true ∧ p ∉ snake_positions self.
Proof.
  unfold empty_cells, in_bounds.
  rewrite !andb_true_iff, !Z.leb_le, !Z.ltb_lt.
  rewrite list_elem_of_bind. setoid_rewrite list_elem_of_bind.
  setoid_rewrite elem_of_range. split.
  - intros (py & (px & Hp & Hx) & Hy).
    destruct (decide _) as [Hfree|]; [|by apply elem_of_nil in Hp].
    apply list_elem_of_singleton in Hp as ->. cbn. auto with lia.
  - intros [Hin Hfree]. exists (y p). split; [|lia].
    exists (x p). split; [|lia].
    destruct p as [px py]. cbn. rewrite decide_True by done.
    by apply list_elem_of_singleton.
Qed.

Lemma random_choice_elem_of {A} (r : nat) (l : list A) (a : A) :
  random_choice r l = Some a -> a ∈ l.
Proof. unfold random_choice. apply list_elem_of_lookup_2. Qed.

Lemma random_choice_is_Some {A} (r : nat) (l : list A) :
  l ≠ [] -> is_Some (random_choice r l).
Proof.
  intros Hl. apply lookup_lt_is_Some_2, Nat.mod_upper_bound.
  by destruct l.
Qed.

Lemma random_choice_any {A} (l : list A) (a : A) :
  a ∈ l -> ∃ r, random_choice r l = Some a.
Proof.
  intros [k Hk]%list_elem_of_lookup_1. exists k. unfold random_choice.
  rewrite Nat.mod_small; [done|]. by eapply lookup_lt_Some.
Qed.

Lemma spawned_food (r : nat) (self : SnakeGame) :
  food (state_of (_spawn_food r self)) = random_choice r (empty_cells self).
Proof.
  cbn. destruct (empty_cells self) eqn:Hcells; [|done].
  unfold random_choice. by rewrite lookup_nil.
Qed.

Lemma spawned_food_None (r : nat) (self : SnakeGame) :
  food (state_of (_spawn_food r self)) = None <-> empty_cells self = [].
Proof.
  rewrite spawned_food. split.
  - intros Hnone. destruct (decide (empty_cells self = [])) as [|Hne]; [done|].
    apply (random_choice_is_Some r) in Hne as [p Hp]. congruence.
  - intros ->. unfold random_choice. by rewrite lookup_nil.
Qed.

(** C3. The spawn changes the food alone; its candidates are exactly the
    board cells outside the occupied set; the food it sets is one of them,
    and any of them can be drawn; it sets no food exactly when every board
    cell is occupied; and a growing tick whose spawn sets no food returns
    WIN. *)
Theorem C3_spawn_food (r : nat) (self : SnakeGame) :
  let self' := state_of (_spawn_food r self) in
  _spawn_food r self = Ok tt (set_food (food self') self)
  ∧ (∀ p, p ∈ empty_cells self
          <-> in_bounds self p = true ∧ p ∉ snake_positions self)
  ∧ (∀ p, food self' = Some p -> p ∈ empty_cells self)
  ∧ (∀ p, p ∈ empty_cells self ->
          ∃ r', food (state_of (_spawn_food r' self)) = Some p)
  ∧ (food self' = None
     <-> ∀ p, in_bounds self p = true -> p ∈ snake_positions self)
  ∧ (∀ head rest,
       food self = Some (step_head self head) ->
       snake self = head :: rest ->
       in_bounds self (step_head self head) = true ->
       step_head self head ∉ snake_positions self ->
       let after := state_of (_spawn_food r (grown (step_head self head) self)) in
       food after = None ->
       _update r self = Ok WIN after).
Proof.
  cbv zeta. split; [apply _spawn_food_unfold|].
  split; [apply elem_of_empty_cells|]. split; [|split; [|split]].
  - intros p. rewrite spawned_food. apply random_choice_elem_of.
  - intros p Hp. apply random_choice_any in Hp as [r' Hr'].
    exists r'. by rewrite spawned_food.
  - rewrite spawned_food_None. split.
    + intros Hnil p Hin. destruct (decide (p ∈ snake_positions self)); [done|].
      assert (p ∈ empty_cells self) as Hp by by apply elem_of_empty_cells.
      rewrite Hnil in Hp. by apply elem_of_nil in Hp.
    + intros Hfull. destruct (empty_cells self) as [|p cells] eqn:Hcells; [done|].
      assert (p ∈ empty_cells self) as Hp by (rewrite Hcells; left).
      apply elem_of_empty_cells in Hp as [Hin Hfree]. by apply Hfull in Hin.
  - intros head rest Hfood Hsnake Hin Hfree Hnone.
    apply _update_tick. by eapply tick_eat_win.
Qed.

Lemma C3_witness :
  _update 0 packed
  = Ok WIN (state_of (_spawn_food 0 (grown (mkPoint 0 9) packed))).
Proof.
  refine (proj2 (proj2 (proj2 (proj2 (proj2 (C3_spawn_food 0 packed)))))
            (mkPoint 1 9) (tail (snake packed)) _ _ _ _ _).
  - reflexivity.
  - vm_compute. reflexivity.
  - reflexivity.
  - apply (bool_decide_unpack _). vm_compute. reflexivity.
  - vm_compute. reflexivity.
Defined.

(** Running a fresh snake into the right wall: four moves, then the head
    at (9,5) has nowhere to go. *)
Example wall_collision :
  ∃ self', (_reset_game 0;; _update 0;; _update 0;; _update 0;; _update 0;;
            _update 0) new10 = Ok COLLISION self'
    ∧ head (snake self') = Some (mkPoint 9 5).
Proof. eexists. split; [vm_compute; reflexivity|]. reflexivity. Qed.

(** Food right in front of a fresh snake: one tick eats it. *)
Example eat_first_food :
  ∃ self', (_reset_game 53;; _update 7) new10 = Ok RUNNING self'
    ∧ score self' = 1 ∧ length (snake self') = 4%nat
    ∧ food self' = Some (mkPoint 7 0).
Proof. eexists. split; [vm_compute; reflexivity|]. by vm_compute. Qed.

(** ** Direction requests *)

(** Every direction can be requested by some key. *)
Lemma direction_map_onto (d : Direction) : ∃ key, direction_map !! key = Some d.
Proof.
  destruct d;
    [exists (ord "w") | exists (ord "s") | exists (ord "a") | exists (ord "d")];
    reflexivity.
Qed.

Lemma is_opposite_spec (d d' : Direction) :
  is_opposite d d' = true
  <-> match d with UP => DOWN | DOWN => UP | LEFT => RIGHT | RIGHT => LEFT end
      = d'.
Proof. destruct d, d'; cbn; split; (done || discriminate). Qed.

(** On a board of at least 10x10 some cell stays free around a snake laid
    in the middle row. *)
Lemma corner_free (self : SnakeGame) (l : list Point) :
  10 <= width self -> 10 <= height self ->
  snake_positions self = list_to_set l ->
  Forall (fun p => y p = height self `div` 2) l ->
  empty_cells self ≠ [].
Proof.
  intros Hw Hh Hset Hrow Hnil.
  assert (mkPoint 0 0 ∈ empty_cells self) as Hin.
  { apply elem_of_empty_cells. split.
    - unfold in_bounds. cbn. lia.
    - rewrite Hset, elem_of_list_to_set. intros Hp.
      rewrite Forall_forall in Hrow. apply Hrow in Hp. cbn in Hp.
      pose proof (Z.div_le_lower_bound (height self) 2 5). lia. }
  rewrite Hnil in Hin. by apply elem_of_nil in Hin.
Qed.

(** C4. A key mapped to direction [d] replaces the pending direction by
    [d] when [d] is neither the current direction nor its opposite, and
    otherwise leaves the engine as it was; so after a reset (moving RIGHT) a
    request for LEFT is dropped and the next tick runs on to the right
    instead of colliding. *)
Theorem C4_direction_admission (self : SnakeGame) (key : Z) (d : Direction) :
  direction_map !! key = Some d ->
  (d ≠ direction self ∧ is_opposite d (direction self) = false ->
     _handle_key key self
     = Ok tt (set_needs_redraw true (set_next_direction d self)))
  ∧ (¬ (d ≠ direction self ∧ is_opposite d (direction self) = false) ->
     _handle_key key self = Ok tt self)
  ∧ (d = LEFT -> 10 <= width self -> 10 <= height self ->
     ∀ r r', ∃ self',
       (_reset_game r;; _handle_key key;; _update r') self = Ok RUNNING self'
       ∧ direction self' = RIGHT
       ∧ head (snake self')
         = Some (mkPoint (width self `div` 2 + 1) (height self `div` 2))).
Proof.
  intros Hkey. split; [|split].
  - intros [Hne Hopp]. rewrite _handle_key_unfold, Hkey, Hopp.
    by rewrite bool_decide_eq_false_2.
  - intros Hrej. rewrite _handle_key_unfold, Hkey.
    destruct (is_opposite d (direction self)); [done|].
    case_bool_decide; [done|]. tauto.
  - intros -> Hw Hh r r'. unfold mbind at 1 2, M_bind.
    rewrite _reset_game_unfold, _spawn_food_unfold.
    rewrite _handle_key_unfold, Hkey. cbn [direction set_food placed].
    change (is_opposite LEFT RIGHT) with true. cbn [negb andb].
    set (mid_x := width self `div` 2). set (mid_y := height self `div` 2).
    set (start := set_food _ _).
    pose proof (Z.div_mod (width self) 2 ltac:(lia)) as Hx.
    pose proof (Z.mod_pos_bound (width self) 2 ltac:(lia)) as Hx'.
    pose proof (Z.div_mod (height self) 2 ltac:(lia)) as Hy.
    pose proof (Z.mod_pos_bound (height self) 2 ltac:(lia)) as Hy'.
    fold mid_x in Hx. fold mid_y in Hy.
    assert (is_Some (food start)) as [food0 Hfood].
    { unfold start. cbn [food set_food]. rewrite spawned_food.
      apply random_choice_is_Some.
      apply (corner_free _ (snake (placed self))); [done..|].
      repeat constructor. }
    assert (in_bounds start (mkPoint (mid_x + 1) mid_y) = true) as Hin.
    { unfold in_bounds. cbn. lia. }
    assert (mkPoint (mid_x + 1) mid_y ∉ snake_positions start) as Hfree.
    { cbn. rewrite !elem_of_union, !elem_of_singleton, elem_of_empty.
      intros [[=]|[[=]|[[=]|[]]]]; lia. }
    assert (step_head start (mkPoint mid_x mid_y) = mkPoint (mid_x + 1) mid_y)
      as Hstep by (unfold step_head, translate; cbn; f_equal; lia).
    destruct (decide (mkPoint (mid_x + 1) mid_y = food0)) as [<-|Hne].
    + set (after := state_of (_spawn_food r' (grown (mkPoint (mid_x + 1) mid_y) start))).
      exists (set_needs_redraw true after). split; [|done].
      apply _update_tick.
      pose proof (tick_eat_run r' start (mkPoint mid_x mid_y)
        [mkPoint (mid_x - 1) mid_y; mkPoint (mid_x - 2) mid_y] after) as Htick.
      rewrite Hstep in Htick. apply Htick; try done.
      unfold after. rewrite spawned_food. apply random_choice_is_Some.
      eapply (corner_free _ (snake (grown _ start))); [done..|].
      repeat constructor.
    + pose proof (tick_move r' start food0 (mkPoint mid_x mid_y)
        [mkPoint (mid_x - 1) mid_y; mkPoint (mid_x - 2) mid_y]) as Htick.
      rewrite Hstep in Htick. eexists. split.
      * apply _update_tick, Htick; try done; [by left|]. cbn. set_solver.
      * done.
Qed.

Lemma C4_witness :
  ∃ self',
    (_reset_game 0;; _handle_key (ord "a");; _update 0) new10 = Ok RUNNING self'
    ∧ direction self' = RIGHT
    ∧ head (snake self') = Some (mkPoint 6 5).
Proof.
  refine (proj2 (proj2 (C4_direction_admission new10 (ord "a") LEFT _))
            _ _ _ 0%nat 0%nat); [reflexivity.. | cbn; lia | cbn; lia].
Defined.

(** A turn that is admitted, and the reversal that is not. *)
Example turn_up_admitted :
  next_direction (state_of ((_reset_game 0;; _handle_key curses.KEY_UP) new10))
  = UP.
Proof. vm_compute. reflexivity. Qed.

Example reversal_dropped :
  (_reset_game 0;; _handle_key curses.KEY_LEFT) new10 = _reset_game 0 new10.
Proof. vm_compute. reflexivity. Qed.

(** ** The order of the body update *)

(** C5, as stated, fails on the coiled snake: the tick returns RUNNING with
    the new head (5,5) in the companion set, while the spec-order [advance]
    gives the same sequence but a set without it. *)
Lemma C5_counterexample :
  ∃ self',
    _update 0 coiled = Ok RUNNING self'
    ∧ self' = uncoiled
    ∧ growing coiled = false
    ∧ (snake self', snake_positions self')
      ≠ spec_advance (mkPoint 5 5) false (snake coiled, snake_positions coiled)
    ∧ mkPoint 5 5 ∈ snake_positions self'
    ∧ mkPoint 5 5
      ∉ (spec_advance (mkPoint 5 5) false
           (snake coiled, snake_positions coiled)).2.
Proof.
  eexists. split; [vm_compute; reflexivity|].
  split; [vm_compute; reflexivity|]. split; [reflexivity|].
  assert (mkPoint 5 5
    ∉ (spec_advance (mkPoint 5 5) false
         (snake coiled, snake_positions coiled)).2) as Hout.
  { apply (bool_decide_unpack _). vm_compute. reflexivity. }
  assert (mkPoint 5 5
    ∈ snake_positions (set_needs_redraw true
        (moved (mkPoint 5 5) (mkPoint 5 5) coiled))) as Hin.
  { apply (bool_decide_unpack _). vm_compute. reflexivity. }
  split; [|split; [exact Hin|exact Hout]].
  intros Heq. apply Hout. rewrite <- Heq. exact Hin.
Qed.

(** C5, amended. A non-colliding tick of an engine without food returns
    WIN at once and changes nothing.  On every other non-colliding tick the
    program drops the tail first (when not growing) and adds the new head
    after; the resulting sequence is that of the spec-order [advance] in
    every case, and the resulting set is that of the spec-order [advance]
    whenever the tick is growing or the new head is not the current tail.
    When a non-growing tick steps onto the current tail, the program's set
    contains the new head and the spec-order set does not. *)
Theorem C5_advance_order (r : nat) (self self' : SnakeGame) (st : GameState) :
  _update r self = Ok st self' ->
  st ≠ COLLISION ->
  match food self, snake self with
  | None, _ => st = WIN ∧ self' = self
  | Some _, [] => False
  | Some _, head :: rest =>
      let new_head := step_head self head in
      let tail := tail_of head rest in
      let spec := spec_advance new_head (growing self)
                    (snake self, snake_positions self) in
      snake self' = spec.1
      ∧ snake_positions self'
        = {[new_head]} ∪ (if growing self then snake_positions self
                          else snake_positions self ∖ {[tail]})
      ∧ (growing self = true ∨ new_head ≠ tail ->
         snake_positions self' = spec.2)
      ∧ (growing self = false ∧ new_head = tail ->
         snake_positions self' = {[new_head]} ∪ spec.2 ∧ new_head ∉ spec.2)
  end.
Proof.
  intros Hup Hst. apply _update_tick in Hup. unfold growing.
  inversion Hup as [Hnone|? ? ? ? Hs|? ? ? ? Hs
    |head rest ? Hfood Hsnake ? ? ->|head rest ? Hfood Hsnake ? ? ->
    |food0 head rest Hfood Hsnake ? Hne]; subst; try done.
  - by rewrite Hnone.
  - rewrite Hfood, Hsnake. cbv zeta.
    rewrite bool_decide_eq_true_2 by done. cbn. rewrite Hsnake.
    do 3 (split; [done|]). by intros [[=] _].
  - rewrite Hfood, Hsnake. cbv zeta.
    rewrite bool_decide_eq_true_2 by done. cbn. rewrite Hsnake.
    do 3 (split; [done|]). by intros [[=] _].
  - rewrite Hfood, Hsnake. cbv zeta.
    rewrite bool_decide_eq_false_2 by done.
    destruct (snake_split head rest) as (front & Hfront & Hremove).
    unfold spec_advance. cbn [fst snd].
    assert (last (step_head self head :: head :: rest)
            = Some (tail_of head rest)) as ->.
    { rewrite Hfront, app_comm_cons. apply last_snoc. }
    change (removelast (step_head self head :: head :: rest))
      with (step_head self head :: removelast (head :: rest)).
    cbn. rewrite Hsnake. do 2 (split; [done|]). split.
    + intros [[=]|Hne']. set_solver.
    + intros [_ <-]. split; set_solver.
Qed.

Lemma C5_witness :
  snake uncoiled = (spec_advance (mkPoint 5 5) false
                      (snake coiled, snake_positions coiled)).1
  ∧ snake_positions uncoiled
    = {[mkPoint 5 5]} ∪ (snake_positions coiled ∖ {[mkPoint 5 5]})
  ∧ (false = true ∨ mkPoint 5 5 ≠ mkPoint 5 5 ->
     snake_positions uncoiled
     = (spec_advance (mkPoint 5 5) false
          (snake coiled, snake_positions coiled)).2)
  ∧ (false = false ∧ mkPoint 5 5 = mkPoint 5 5 ->
     snake_positions uncoiled
     = {[mkPoint 5 5]}
       ∪ (spec_advance (mkPoint 5 5) false
            (snake coiled, snake_positions coiled)).2
     ∧ mkPoint 5 5
       ∉ (spec_advance (mkPoint 5 5) false
            (snake coiled, snake_positions coiled)).2).
Proof.
  apply (C5_advance_order 0 coiled uncoiled RUNNING).
  - vm_compute. reflexivity.
  - discriminate.
Defined.

(** The tick without food, run: WIN, and the engine as it was. *)
Example no_food_tick : _update 0 (set_food None coiled)
                       = Ok WIN (set_food None coiled).
Proof. reflexivity. Qed.

(** ** Frame clock *)

Section FloatOrder.

Local Open Scope float_scope.

Lemma SFcompare_antisym (f1 f2 : spec_float) :
  SFcompare f2 f1 = CompOpp <$> SFcompare f1 f2.
Proof.
  destruct f1 as [s1|s1| |s1 m1 e1], f2 as [s2|s2| |s2 m2 e2];
    try destruct s1; try destruct s2; try reflexivity;
    cbn; rewrite (Z.compare_antisym e1 e2);
    destruct (e1 ?= e2)%Z; cbn; try reflexivity;
    change (Pos.compare_cont Eq m2 m1) with (m2 ?= m1)%positive;
    change (Pos.compare_cont Eq m1 m2) with (m1 ?= m2)%positive;
    rewrite (Pos.compare_antisym m1 m2);
    by destruct (m1 ?= m2)%positive.
Qed.

Lemma SFcompare_refl (f c : spec_float) (o : comparison) :
  SFcompare c f = Some o -> SFcompare f f = Some Eq.
Proof.
  destruct f as [s|s| |s m e]; [done| by destruct s | by destruct c |].
  intros _. cbn. rewrite Z.compare_refl.
  change (Pos.compare_cont Eq m m) with (m ?= m)%positive.
  rewrite Pos.compare_refl. by destruct s.
Qed.

Lemma SFcompare_total (f1 f2 c1 c2 : spec_float) (o1 o2 : comparison) :
  SFcompare c1 f1 = Some o1 -> SFcompare c2 f2 = Some o2 ->
  ∃ o, SFcompare f1 f2 = Some o.
Proof.
  destruct f1, f2; cbn; eauto; destruct c1, c2; discriminate.
Qed.

Lemma ltb_leb (a b : float) : (a <? b) = true -> (a <=? b) = true.
Proof.
  rewrite ltb_spec, leb_spec. unfold SFltb, SFleb.
  by destruct (SFcompare _ _) as [[]|].
Qed.

Lemma ltb_asym (a b : float) : (a <? b) = true -> (b <? a) = false.
Proof.
  rewrite !ltb_spec. unfold SFltb.
  rewrite (SFcompare_antisym (Prim2SF a) (Prim2SF b)).
  by destruct (SFcompare _ _) as [[]|].
Qed.

Lemma leb_not_ltb (a b : float) : (a <=? b) = true -> (b <? a) = false.
Proof.
  rewrite ltb_spec, leb_spec. unfold SFltb, SFleb.
  rewrite (SFcompare_antisym (Prim2SF a) (Prim2SF b)).
  by destruct (SFcompare _ _) as [[]|].
Qed.

(** A float that stands right of a strict comparison is a number. *)
Lemma leb_refl_of_ltb (c a : float) : (c <? a) = true -> (a <=? a) = true.
Proof.
  rewrite ltb_spec, leb_spec. unfold SFltb, SFleb.
  destruct (SFcompare (Prim2SF c) (Prim2SF a)) as [o|] eqn:Hc; [|done].
  by rewrite (SFcompare_refl _ _ _ Hc).
Qed.

Lemma not_ltb_leb (c a b : float) :
  (c <? a) = true -> (c <? b) = true -> (b <? a) = false -> (a <=? b) = true.
Proof.
  rewrite !ltb_spec, leb_spec. unfold SFltb, SFleb.
  rewrite (SFcompare_antisym (Prim2SF a) (Prim2SF b)).
  destruct (SFcompare (Prim2SF c) (Prim2SF a)) as [oa|] eqn:Hca; [|done].
  destruct (SFcompare (Prim2SF c) (Prim2SF b)) as [ob|] eqn:Hcb; [|done].
  destruct (SFcompare_total _ _ _ _ _ _ Hca Hcb) as [o ->].
  by destruct o.
Qed.

Lemma nonpos_ltb_pos (a b : float) :
  (b <=? 0) = true -> (0 <? a) = true -> (b <? a) = true.
Proof.
  rewrite !ltb_spec, leb_spec. unfold SFltb, SFleb.
  change (Prim2SF 0) with (S754_zero false).
  destruct (Prim2SF a) as [[]|[]| |[] ? ?], (Prim2SF b) as [[]|[]| |[] ? ?];
    done.
Qed.

(** The bounds of [max(0.0, min(a, b))] for a positive [a]. *)
Lemma idle_bounds (a b : float) :
  (0 <? a) = true ->
  let idle := py_max 0 (py_min a b) in
  (idle <? 0) = false
  ∧ (0 <=? idle) = true
  ∧ (idle <=? a) = true
  ∧ ((0 <? b) = true -> (idle <=? b) = true)
  ∧ ((b <=? 0) = true -> idle = 0).
Proof.
  intros Ha. cbv zeta. unfold py_max, py_min.
  destruct (b <? a) eqn:Hba.
  - destruct (0 <? b) eqn:Hb; repeat split; try done.
    + by apply ltb_asym.
    + by apply ltb_leb.
    + by apply ltb_leb.
    + intros _. by eapply leb_refl_of_ltb.
    + intros Hb'. apply leb_not_ltb in Hb'. congruence.
    + by apply ltb_leb.
  - rewrite Ha. repeat split.
    + by apply ltb_asym.
    + by apply ltb_leb.
    + by eapply leb_refl_of_ltb.
    + intros Hb. by eapply not_ltb_leb.
    + intros Hb. pose proof (nonpos_ltb_pos a b Hb Ha). congruence.
Qed.

End FloatOrder.

(** Half the frame delay is a positive number at every admitted speed. *)
Lemma half_delay_pos (s : Z) :
  1 <= s <= 30 -> (0 <? 1 / float_of_Z s / 2)%float = true.
Proof.
  intros Hs.
  assert (s ∈ Z.of_nat <$> seq 1 30) as Hin.
  { apply list_elem_of_fmap. exists (Z.to_nat s). split; [lia|].
    apply elem_of_seq. lia. }
  clear Hs. revert s Hin. apply Forall_forall.
  apply (bool_decide_unpack _). vm_compute. reflexivity.
Qed.

(** No method changes the frame delay set at construction. *)
Lemma frame_delay_fixed (self : SnakeGame) (r : nat) (key : Z) :
  frame_delay (state_of (_reset_game r self)) = frame_delay self
  ∧ frame_delay (state_of (_handle_key key self)) = frame_delay self
  ∧ frame_delay (state_of (_update r self)) = frame_delay self.
Proof.
  split; [done|]. split.
  - rewrite _handle_key_unfold. cbn [state_of]. by repeat case_match.
  - rewrite _update_unfold. cbv zeta. by repeat case_match.
Qed.

(** C10, as stated, fails once an iteration has taken longer than 0.016
    seconds: at 10 frames per second and 0.02 seconds elapsed the idle
    duration is 0.0, above the negative 0.016 - 0.02. *)
Lemma C10_counterexample :
  sleep_for new10 0.02 = 0%float
  ∧ (0.016 - 0.02 <? 0)%float = true
  ∧ (sleep_for new10 0.02 <=? 0.016 - 0.02)%float = false.
Proof. vm_compute. done. Qed.

(** C10, amended. For an engine whose frame delay is the one construction
    computed, the idle duration of an iteration is never negative and at
    most half the frame delay; it is at most 0.016 minus the elapsed time
    whenever that difference is positive, and it is 0.0 whenever that
    difference is zero or negative. *)
Theorem C10_sleep_bounds (w h s : Z) (made self : SnakeGame)
    (elapsed : float) :
  __init__ w h s = inr made ->
  frame_delay self = frame_delay made ->
  ((sleep_for self elapsed <? 0) = false
   ∧ (0 <=? sleep_for self elapsed) = true
   ∧ (sleep_for self elapsed <=? frame_delay self / 2) = true
   ∧ ((0 <? 0.016 - elapsed) = true ->
      (sleep_for self elapsed <=? 0.016 - elapsed) = true)
   ∧ ((0.016 - elapsed <=? 0) = true -> sleep_for self elapsed = 0))%float.
Proof.
  intros Hinit Hdelay.
  assert (1 <= s <= 30 ∧ frame_delay made = (1 / float_of_Z s)%float)
    as [Hs Hmade].
  { revert Hinit. unfold __init__.
    destruct (Z.ltb_spec w 10), (Z.ltb_spec h 10), (Z.ltb_spec s 1),
      (Z.gtb_spec s 30); cbn [orb]; intros [= <-]. split; [lia|done]. }
  apply idle_bounds. rewrite Hdelay, Hmade. by apply half_delay_pos.
Qed.

Lemma C10_witness :
  ((sleep_for new10 0.001 <? 0) = false
   ∧ (0 <=? sleep_for new10 0.001) = true
   ∧ (sleep_for new10 0.001 <=? frame_delay new10 / 2) = true
   ∧ ((0 <? 0.016 - 0.001) = true ->
      (sleep_for new10 0.001 <=? 0.016 - 0.001) = true)
   ∧ ((0.016 - 0.001 <=? 0) = true -> sleep_for new10 0.001 = 0))%float.
Proof.
  apply (C10_sleep_bounds 10 10 10 new10 new10 0.001%float); reflexivity.
Defined.

(** An unhurried iteration at 10 frames per second idles for the rest of
    the 0.016 seconds. *)
Example idle_after_1ms :
  sleep_for new10 0.001 = (0.016 - 0.001)%float.
Proof. reflexivity. Qed.

(** * Further properties *)

(** ** Directions *)

(** X1. [is_opposite] is symmetric, no direction is its own opposite, and
    two directions are opposite exactly when stepping along one and then
    along the other leads back to the starting point. *)
Theorem is_opposite_round_trip (d d' : Direction) (p : Point) :
  is_opposite d d' = is_opposite d' d
  ∧ is_opposite d d = false
  ∧ (is_opposite d d' = true
     <-> translate (translate p (delta d).1 (delta d).2)
           (delta d').1 (delta d').2 = p).
Proof.
  destruct p as [px py]. unfold translate.
  destruct d, d'; cbn; (split; [done|]); (split; [done|]);
    (split; [intros ?; try done; f_equal; lia | intros [= ? ?]; done || lia]).
Qed.

(** ** Inputs *)

Lemma same_board_refl (self : SnakeGame) : same_board self self.
Proof. by repeat split. Qed.

Lemma same_board_trans (s1 s2 s3 : SnakeGame) :
  same_board s1 s2 -> same_board s2 s3 -> same_board s1 s3.
Proof. unfold same_board. intros ? ?. repeat split; naive_solver congruence. Qed.

Lemma _handle_key_same_board (key : Z) (self : SnakeGame) :
  same_board self (state_of (_handle_key key self)).
Proof.
  rewrite _handle_key_unfold. cbn [state_of].
  repeat case_match; by repeat split.
Qed.

Lemma _process_input_unfold (key : Z) (rest : list Z) (self : SnakeGame) :
  _process_input (key :: rest) self =
  if bool_decide (key = -1) then Ok tt self
  else if bool_decide (key = curses.KEY_RESIZE)
  then _process_input rest (set_needs_redraw true self)
  else _process_input rest (state_of (_handle_key key self)).
Proof.
  cbn [_process_input]. repeat case_bool_decide; try done.
  unfold mbind, M_bind. by rewrite _handle_key_unfold.
Qed.

(** Whatever one drained key preserves, the whole drain preserves. *)
Lemma _process_input_preserves (P : SnakeGame -> Prop) :
  (∀ self, P self -> P (set_needs_redraw true self)) ->
  (∀ key self, P self -> P (state_of (_handle_key key self))) ->
  ∀ getch self, P self ->
    ∃ self', _process_input getch self = Ok tt self' ∧ P self'.
Proof.
  intros Hresize Hkey getch.
  induction getch as [|key rest IH]; intros self HP; [by eexists|].
  rewrite _process_input_unfold. repeat case_bool_decide; eauto.
Qed.

Lemma _process_input_same_board (getch : list Z) (self : SnakeGame) :
  ∃ self', _process_input getch self = Ok tt self' ∧ same_board self self'.
Proof.
  apply (_process_input_preserves (same_board self)).
  - intros s Hs. eapply same_board_trans; [done|]. by repeat split.
  - intros key s Hs. eapply same_board_trans; [done|].
    apply _handle_key_same_board.
  - apply same_board_refl.
Qed.

(** X2. Draining the input never raises and never touches the board: the
    dimensions, speed and frame delay, the body and its set, the current
    direction, the food and the score stay as they were. *)
Theorem _process_input_frame (getch : list Z) (self : SnakeGame) :
  ∃ self', _process_input getch self = Ok tt self'
    ∧ width self' = width self ∧ height self' = height self
    ∧ speed self' = speed self ∧ frame_delay self' = frame_delay self
    ∧ snake self' = snake self
    ∧ snake_positions self' = snake_positions self
    ∧ direction self' = direction self
    ∧ food self' = food self
    ∧ score self' = score self.
Proof.
  destruct (_process_input_same_board getch self) as (self' & Hrun & Hsame).
  exists self'. split; [exact Hrun|exact Hsame].
Qed.

(** X3. A quit request sticks: once [quit_requested] is set, no input
    clears it. *)
Theorem quit_request_sticks (getch : list Z) (self : SnakeGame) :
  quit_requested self = true ->
  quit_requested (state_of (_process_input getch self)) = true.
Proof.
  intros Hquit.
  destruct (_process_input_preserves (fun s => quit_requested s = true))
    with (getch := getch) (self := self) as (self' & -> & Hq); try done.
  intros key s Hs. rewrite _handle_key_unfold. cbn [state_of].
  by repeat case_match.
Qed.

Lemma quit_request_sticks_witness :
  quit_requested
    (state_of (_process_input [ord "p"; curses.KEY_UP; ord "x"]
                 (set_quit_requested true new10))) = true.
Proof. apply quit_request_sticks. reflexivity. Defined.

(** X4. The drain stops at the first [-1]: what [getch] would return after
    it is not consumed, and a drain of two batches without [-1] in the first
    is the drain of the first followed by the drain of the second. *)
Theorem _process_input_stops (ks rest : list Z) (self : SnakeGame) :
  -1 ∉ ks ->
  _process_input (ks ++ -1 :: rest) self = _process_input ks self
  ∧ _process_input (ks ++ rest) self
    = (_process_input ks;; _process_input rest) self.
Proof.
  revert self. induction ks as [|key ks IH]; intros self Hks.
  - split; [|done]. rewrite app_nil_l, _process_input_unfold.
    by rewrite bool_decide_eq_true_2.
  - apply not_elem_of_cons in Hks as [Hkey Hks].
    rewrite <- !app_comm_cons, !_process_input_unfold.
    rewrite (bool_decide_eq_false_2 (key = -1)) by done.
    unfold mbind, M_bind. rewrite _process_input_unfold.
    rewrite (bool_decide_eq_false_2 (key = -1)) by done.
    case_bool_decide; split; by apply IH.
Qed.

Lemma _process_input_stops_witness :
  _process_input ([curses.KEY_UP; ord "p"] ++ -1 :: [ord "q"]) new10
  = _process_input [curses.KEY_UP; ord "p"] new10
  ∧ _process_input ([curses.KEY_UP; ord "p"] ++ [ord "q"]) new10
    = (_process_input [curses.KEY_UP; ord "p"];; _process_input [ord "q"]) new10.
Proof.
  apply _process_input_stops.
  apply (bool_decide_unpack _). vm_compute. reflexivity.
Defined.

(** X5. The pause keys toggle: either of [p], [P] flips [paused], and a
    second one restores it, leaving the engine as it was but for the redraw
    request. *)
Theorem pause_toggles (key key' : Z) (self : SnakeGame) :
  key = ord "p" ∨ key = ord "P" ->
  key' = ord "p" ∨ key' = ord "P" ->
  _handle_key key self
  = Ok tt (set_needs_redraw true (set_paused (negb (paused self)) self))
  ∧ (_handle_key key;; _handle_key key') self
    = Ok tt (set_needs_redraw true self).
Proof.
  assert (∀ k s, k = ord "p" ∨ k = ord "P" ->
    _handle_key k s
    = Ok tt (set_needs_redraw true (set_paused (negb (paused s)) s))) as Hp.
  { intros k s Hk. rewrite _handle_key_unfold.
    assert (direction_map !! k = None) as ->
      by (destruct Hk as [-> | ->]; vm_compute; reflexivity).
    assert (bool_decide (k = ord "p") || bool_decide (k = ord "P") = true)
      as -> by (destruct Hk as [-> | ->]; vm_compute; reflexivity).
    done. }
  intros Hk Hk'. unfold mbind, M_bind. rewrite !Hp by done.
  split; [done|]. cbn. rewrite negb_involutive. by destruct self.
Qed.

Lemma pause_toggles_witness :
  _handle_key (ord "p") new10
  = Ok tt (set_needs_redraw true (set_paused (negb (paused new10)) new10))
  ∧ (_handle_key (ord "p");; _handle_key (ord "P")) new10
    = Ok tt (set_needs_redraw true new10).
Proof. apply pause_toggles; [by left | by right]. Defined.

(** ** Invariants of play *)

(** Induction over the reachable states, with the tick taken along the
    returns of [_update] (a tick in play never raises). *)
Lemma reachable_invariant (P : SnakeGame -> Prop) :
  (∀ r self, P (state_of (_reset_game r self))) ->
  (∀ self, P self -> P (set_needs_redraw true self)) ->
  (∀ key self, P self -> P (state_of (_handle_key key self))) ->
  (∀ r self st self',
     reachable self -> P self -> tick r self st self' -> P self') ->
  ∀ self, reachable self -> P self.
Proof.
  intros Hreset Hresize Hkey Htick.
  induction 1 as [r self|r self Hreach IH|key self _ IH|getch self _ IH].
  - apply Hreset.
  - destruct (reachable_update_returns r self Hreach) as (st & self' & Hup).
    rewrite Hup. apply _update_tick in Hup. by eapply Htick.
  - by apply Hkey.
  - by destruct (_process_input_preserves P Hresize Hkey getch self IH)
      as (self' & -> & HP).
Qed.

Lemma playing_reachable (self : SnakeGame) : playing self -> reachable self.
Proof.
  induction 1 as [r self|r self self' st _ IH Hup _|key self _ IH
    |getch self _ IH].
  - apply reach_reset.
  - replace self' with (state_of (_update r self)) by by rewrite Hup.
    by apply reach_update.
  - by apply reach_key.
  - by apply reach_input.
Qed.

Lemma playing_invariant (P : SnakeGame -> Prop) :
  (∀ r self, P (state_of (_reset_game r self))) ->
  (∀ self, P self -> P (set_needs_redraw true self)) ->
  (∀ key self, P self -> P (state_of (_handle_key key self))) ->
  (∀ r self st self',
     P self -> tick r self st self' -> st ≠ COLLISION -> P self') ->
  ∀ self, playing self -> P self.
Proof.
  intros Hreset Hresize Hkey Htick.
  induction 1 as [r self|r self self' st _ IH Hup Hst|key self _ IH
    |getch self _ IH].
  - apply Hreset.
  - apply _update_tick in Hup. by eapply Htick.
  - by apply Hkey.
  - by destruct (_process_input_preserves P Hresize Hkey getch self IH)
      as (self' & -> & HP).
Qed.

(** A property of the board attributes alone survives every input. *)
Lemma board_invariant (P : SnakeGame -> Prop) :
  (∀ self self', same_board self self' -> P self -> P self') ->
  (∀ r self, P (state_of (_reset_game r self))) ->
  (∀ r self st self',
     reachable self -> P self -> tick r self st self' -> P self') ->
  ∀ self, reachable self -> P self.
Proof.
  intros Hboard Hreset Htick. apply reachable_invariant; [done| | |done].
  - intros self. apply Hboard. by repeat split.
  - intros key self. apply Hboard, _handle_key_same_board.
Qed.

(** Names the cases of a returned tick. *)
Ltac tick_cases H :=
  inversion H as
    [ Hfood
    | food0 head rest Hfood Hsnake Hin
    | food0 head rest Hfood Hsnake Hin Hhit
    | head rest after Hfood Hsnake Hin Hfree Hafter Hnone
    | head rest after Hfood Hsnake Hin Hfree Hafter Hsome
    | food0 head rest Hfood Hsnake Hin Hne Hfree Htail ];
  subst.

Lemma food_ok_spawned (r : nat) (self : SnakeGame) :
  food_ok (state_of (_spawn_food r self)).
Proof.
  intros f. rewrite spawned_food.
  intros Hf%random_choice_elem_of%elem_of_empty_cells. exact Hf.
Qed.

Lemma food_ok_reachable (self : SnakeGame) : reachable self -> food_ok self.
Proof.
  revert self. apply (board_invariant food_ok).
  - intros s s' (Hw & Hh & _ & _ & _ & Hpos & _ & Hf & _) HP f.
    unfold in_bounds. rewrite Hw, Hh, Hpos, Hf. apply HP.
  - intros r self. rewrite _reset_game_unfold. apply food_ok_spawned.
  - intros r self st self' _ HP Htick. tick_cases Htick; try apply HP.
    + apply food_ok_spawned.
    + apply (food_ok_spawned r (grown (step_head self head) self)).
    + intros f Hf. change (food self = Some f) in Hf.
      destruct (HP f Hf) as [Hinf Hoff].
      split; [exact Hinf|]. cbn. rewrite Hfood in Hf. injection Hf as ->.
      set_solver.
Qed.

(** X6. In play the food, when there is one, lies on the board and on no
    segment of the snake. *)
Theorem food_off_snake (self : SnakeGame) (f : Point) :
  reachable self -> food self = Some f ->
  in_bounds self f = true ∧ f ∉ snake self.
Proof.
  intros Hreach Hf.
  destruct (food_ok_reachable self Hreach f Hf) as [Hin Hoff].
  destruct (reachable_nonempty self Hreach) as [[Hset _] _].
  split; [done|]. by rewrite Hset, elem_of_list_to_set in Hoff.
Qed.

Lemma length_score_reachable (self : SnakeGame) :
  reachable self ->
  Z.of_nat (length (snake self)) = 3 + score self ∧ 0 <= score self.
Proof.
  revert self.
  apply (board_invariant (fun self =>
    Z.of_nat (length (snake self)) = 3 + score self ∧ 0 <= score self)).
  - intros s s' (_ & _ & _ & _ & Hsnake & _ & _ & _ & Hscore).
    by rewrite Hsnake, Hscore.
  - intros r self. rewrite _reset_game_unfold. cbn. lia.
  - intros r self st self' _ [Hlen Hpos] Htick.
    tick_cases Htick; try done; cbn; rewrite Hsnake in Hlen |- *;
      cbn [length] in *; try lia.
    rewrite length_removelast_cons. cbn [length] in Hlen. lia.
Qed.

(** X7. In play the score counts the growth: the snake has three segments
    more than the score, so it never has fewer than three, and the score is
    never negative. *)
Theorem score_counts_growth (self : SnakeGame) :
  reachable self ->
  Z.of_nat (length (snake self)) = 3 + score self
  ∧ 0 <= score self
  ∧ (3 <= length (snake self))%nat.
Proof.
  intros [Hlen Hscore]%length_score_reachable. repeat split; [done..|lia].
Qed.

Lemma score_counts_growth_witness :
  Z.of_nat (length (snake coiled)) = 3 + score coiled
  ∧ 0 <= score coiled
  ∧ (3 <= length (snake coiled))%nat.
Proof. exact (score_counts_growth coiled coiled_in_play). Defined.

Lemma food_off_snake_witness :
  in_bounds coiled (mkPoint 0 0) = true
  ∧ mkPoint 0 0 ∉ snake coiled.
Proof.
  exact (food_off_snake coiled (mkPoint 0 0) coiled_in_play eq_refl).
Defined.

Lemma in_bounds_same (self self' : SnakeGame) (p : Point) :
  width self' = width self -> height self' = height self ->
  in_bounds self' p = in_bounds self p.
Proof. unfold in_bounds. by intros -> ->. Qed.

Lemma on_board_reachable (self : SnakeGame) :
  reachable self ->
  10 <= width self -> 10 <= height self ->
  Forall (fun p => in_bounds self p = true) (snake self).
Proof.
  revert self.
  apply (board_invariant (fun self =>
    10 <= width self -> 10 <= height self ->
    Forall (fun p => in_bounds self p = true) (snake self))).
  - intros s s' (Hw & Hh & _ & _ & Hsnake & _) HP.
    rewrite Hw, Hh, Hsnake. intros Hw' Hh'.
    eapply Forall_impl; [by apply HP|]. intros p Hp.
    by rewrite (in_bounds_same s s').
  - intros r self. rewrite _reset_game_unfold. cbn. intros Hw Hh.
    pose proof (Z.div_mod (width self) 2 ltac:(lia)).
    pose proof (Z.mod_pos_bound (width self) 2 ltac:(lia)).
    pose proof (Z.div_mod (height self) 2 ltac:(lia)).
    pose proof (Z.mod_pos_bound (height self) 2 ltac:(lia)).
    repeat constructor; unfold in_bounds; cbn; lia.
  - intros r self st self' _ HP Htick.
    tick_cases Htick; try exact HP; intros Hw Hh; specialize (HP Hw Hh).
    + apply Forall_cons. split; [exact Hin|exact HP].
    + apply Forall_cons. split; [exact Hin|exact HP].
    + apply Forall_cons. split; [exact Hin|].
      destruct (snake_split head rest) as (front & Hfront & Hremove).
      change (Forall (fun p => in_bounds self p = true)
                (removelast (snake self))).
      rewrite Hsnake, Hremove. rewrite Hsnake, Hfront in HP.
      by apply Forall_app in HP as [HP _].
Qed.

(** *** Counting cells *)

Lemma NoDup_range (n : Z) : NoDup (range n).
Proof. apply NoDup_fmap; [apply _|apply NoDup_seq]. Qed.

Lemma length_range (n : Z) : length (range n) = Z.to_nat n.
Proof. unfold range. by rewrite length_fmap, length_seq. Qed.

Lemma elem_of_all_cells (self : SnakeGame) (p : Point) :
  p ∈ all_cells self <-> in_bounds self p = true.
Proof.
  unfold all_cells, in_bounds.
  rewrite !andb_true_iff, !Z.leb_le, !Z.ltb_lt.
  rewrite list_elem_of_bind. setoid_rewrite list_elem_of_bind.
  setoid_rewrite elem_of_range. setoid_rewrite list_elem_of_singleton. split.
  - intros (py & (px & -> & Hx) & Hy). cbn. lia.
  - intros Hin. exists (y p). split; [|lia]. exists (x p).
    split; [by destruct p|lia].
Qed.

Lemma NoDup_all_cells (self : SnakeGame) : NoDup (all_cells self).
Proof.
  apply NoDup_bind; [| |apply NoDup_range].
  - intros y1 y2 p _ _.
    rewrite !list_elem_of_bind. setoid_rewrite list_elem_of_singleton.
    intros (x1 & -> & _) (x2 & [= _ ->] & _). done.
  - intros py _. apply NoDup_bind; [| |apply NoDup_range].
    + intros x1 x2 p _ _. rewrite !list_elem_of_singleton. congruence.
    + intros px _. apply NoDup_singleton.
Qed.

Lemma length_bind_const {A B} (f : A -> list B) (l : list A) (k : nat) :
  (∀ a, length (f a) = k) -> length (l ≫= f) = (length l * k)%nat.
Proof.
  intros Hf. induction l as [|a l IH]; [done|].
  cbn. rewrite length_app, Hf. cbn in IH. rewrite IH. lia.
Qed.

Lemma length_all_cells (self : SnakeGame) :
  0 <= width self -> 0 <= height self ->
  Z.of_nat (length (all_cells self)) = width self * height self.
Proof.
  intros Hw Hh. unfold all_cells.
  rewrite (length_bind_const _ _ (Z.to_nat (width self))).
  - rewrite length_range. lia.
  - intros py. rewrite (length_bind_const _ _ 1%nat) by done.
    rewrite length_range. lia.
Qed.

(** X8. On a board of at least 10x10 every segment of the snake stays on
    the board throughout play, and the snake is never longer than the board
    has cells. *)
Theorem snake_stays_on_board (self : SnakeGame) :
  reachable self ->
  10 <= width self -> 10 <= height self ->
  Forall (fun p => in_bounds self p = true) (snake self)
  ∧ Z.of_nat (length (snake self)) <= width self * height self.
Proof.
  intros Hreach Hw Hh.
  pose proof (on_board_reachable self Hreach Hw Hh) as Hon.
  split; [exact Hon|].
  destruct (reachable_nonempty self Hreach) as [[_ Hnodup] _].
  rewrite <- length_all_cells by lia. apply inj_le, submseteq_length.
  apply NoDup_submseteq; [done|]. intros p Hp.
  apply elem_of_all_cells. by rewrite Forall_forall in Hon; apply Hon.
Qed.

Lemma snake_stays_on_board_witness :
  Forall (fun p => in_bounds coiled p = true) (snake coiled)
  ∧ Z.of_nat (length (snake coiled)) <= width coiled * height coiled.
Proof. apply (snake_stays_on_board coiled coiled_in_play); cbn; lia. Defined.

Lemma connected_removelast (l : list Point) :
  connected l -> connected (removelast l).
Proof.
  induction l as [|p [|q l] IH]; [done..|].
  intros [Hpq Hl]. specialize (IH Hl).
  change (removelast (p :: q :: l)) with (p :: removelast (q :: l)).
  destruct l as [|q' l]; [done|].
  change (removelast (q :: q' :: l)) with (q :: removelast (q' :: l)) in *.
  by split.
Qed.

Lemma step_head_adjacent (self : SnakeGame) (head : Point) :
  adjacent (step_head self head) head.
Proof.
  unfold adjacent, step_head. destruct (next_direction self); cbn; lia.
Qed.

(** X9. In play the body is one connected chain: each segment shares a
    side with the next. *)
Theorem snake_connected (self : SnakeGame) :
  reachable self -> connected (snake self).
Proof.
  revert self. apply (board_invariant (fun self => connected (snake self))).
  - intros s s' (_ & _ & _ & _ & Hsnake & _). by rewrite Hsnake.
  - intros r self. rewrite _reset_game_unfold. cbn.
    unfold adjacent. cbn. repeat split; lia.
  - intros r self st self' _ HP Htick. tick_cases Htick; try done; cbn.
    + rewrite Hsnake in HP |- *. split; [apply step_head_adjacent|done].
    + rewrite Hsnake in HP |- *. split; [apply step_head_adjacent|done].
    + rewrite Hsnake in HP |- *. apply connected_removelast in HP.
      destruct rest as [|neck rest]; [done|].
      change (removelast (head :: neck :: rest))
        with (head :: removelast (neck :: rest)) in *.
      split; [apply step_head_adjacent|done].
Qed.

Lemma snake_connected_witness : connected (snake coiled).
Proof. exact (snake_connected coiled coiled_in_play). Defined.

Lemma spawn_none_full (r : nat) (self : SnakeGame) (p : Point) :
  food (state_of (_spawn_food r self)) = None ->
  in_bounds self p = true -> p ∈ snake_positions self.
Proof.
  intros Hnil%spawned_food_None Hin.
  destruct (decide (p ∈ snake_positions self)) as [|Hfree]; [done|].
  assert (p ∈ empty_cells self) as Hp by by apply elem_of_empty_cells.
  rewrite Hnil in Hp. by apply elem_of_nil in Hp.
Qed.

Lemma no_food_means_full (self : SnakeGame) :
  reachable self ->
  food self = None -> ∀ p, in_bounds self p = true -> p ∈ snake_positions self.
Proof.
  revert self.
  apply (board_invariant (fun s =>
    food s = None -> ∀ p, in_bounds s p = true -> p ∈ snake_positions s)).
  - intros s s' (Hw & Hh & _ & _ & _ & Hpos & _ & Hf & _) HP Hnone p.
    rewrite (in_bounds_same s s'), Hpos by done. apply HP. congruence.
  - intros r s Hnone p. rewrite _reset_game_unfold in *.
    by apply (spawn_none_full r (placed s)).
  - intros r s st s' _ HP Htick. tick_cases Htick; try exact HP.
    + intros _ p. by apply (spawn_none_full r (grown (step_head s head) s)).
    + destruct Hsome as [f Hf]. cbn in *. congruence.
    + cbn. congruence.
Qed.

(** X10. In play a tick returns WIN only with the board full: there is no
    food left and every cell of the board is a segment of the snake. *)
Theorem win_means_full (r : nat) (self self' : SnakeGame) :
  reachable self ->
  _update r self = Ok WIN self' ->
  food self' = None
  ∧ ∀ p, in_bounds self' p = true -> p ∈ snake self'.
Proof.
  intros Hreach Hup.
  assert (reachable self') as Hreach'.
  { replace self' with (state_of (_update r self)) by by rewrite Hup.
    by apply reach_update. }
  destruct (reachable_nonempty self' Hreach') as [[Hset _] _].
  assert (food self' = None) as Hnone.
  { apply _update_tick in Hup. by inversion Hup. }
  split; [done|]. intros p Hp.
  apply (no_food_means_full self' Hreach' Hnone) in Hp.
  by rewrite Hset, elem_of_list_to_set in Hp.
Qed.

Lemma autoplay_reachable (n : nat) (self : SnakeGame) :
  reachable self -> reachable (Nat.iter n autoplay_step self).
Proof.
  intros Hreach. induction n as [|n IH]; [done|].
  rewrite Nat.iter_succ. revert IH.
  generalize (Nat.iter n autoplay_step self). intros s Hs.
  unfold autoplay_step.
  destruct (snake s); [exact Hs|]. by apply reach_update, reach_key.
Qed.

Lemma nearly_won_in_play : reachable nearly_won.
Proof. apply autoplay_reachable, reach_reset. Qed.

(** The game can be won: steering along the tour fills the board, and the
    tick that eats the last food returns WIN. *)
Example game_can_be_won :
  length (snake nearly_won) = 99%nat
  ∧ ∃ self', _update 0 nearly_won = Ok WIN self'
      ∧ score self' = 97 ∧ length (snake self') = 100%nat.
Proof.
  split; [by vm_compute|]. eexists. split; [vm_compute; reflexivity|].
  by vm_compute.
Qed.

Lemma win_means_full_witness :
  food (state_of (_update 0 nearly_won)) = None
  ∧ ∀ p, in_bounds (state_of (_update 0 nearly_won)) p = true ->
         p ∈ snake (state_of (_update 0 nearly_won)).
Proof.
  apply (win_means_full 0 nearly_won (state_of (_update 0 nearly_won))
           nearly_won_in_play).
  vm_compute. reflexivity.
Defined.

(** ** No reversal *)

Lemma is_opposite_irrefl (d : Direction) : is_opposite d d = false.
Proof. by destruct d. Qed.

Lemma step_head_translate (self : SnakeGame) (head : Point) :
  step_head self head
  = translate head (delta (next_direction self)).1 (delta (next_direction self)).2.
Proof. unfold step_head. by destruct (delta _). Qed.

Lemma heading_ok_playing (self : SnakeGame) : playing self -> heading_ok self.
Proof.
  revert self. apply (playing_invariant heading_ok).
  - intros r self. rewrite _reset_game_unfold. split; [done|].
    cbn. intros head neck rest [= <- <- _]. unfold translate. cbn.
    f_equal; lia.
  - by intros self [Hopp Hhead].
  - intros key self [Hopp Hhead]. rewrite _handle_key_unfold. cbn [state_of].
    destruct (direction_map !! key) as [d|]; [|by repeat case_match].
    destruct (negb (is_opposite d (direction self)) && _) eqn:Hadmit; [|done].
    split; [|exact Hhead]. cbn.
    apply andb_true_iff in Hadmit as [Hadmit _]. by apply negb_true_iff.
  - intros r self st self' [Hopp Hhead] Htick Hst.
    tick_cases Htick; try done.
    + split; [apply is_opposite_irrefl|]. cbn. rewrite Hsnake.
      intros ? ? ? [= <- <- _]. apply step_head_translate.
    + split; [apply is_opposite_irrefl|]. cbn. rewrite Hsnake.
      intros ? ? ? [= <- <- _]. apply step_head_translate.
    + split; [apply is_opposite_irrefl|]. cbn. rewrite Hsnake.
      destruct rest as [|neck rest]; [by intros ? ? ? [=]|].
      change (removelast (head :: neck :: rest))
        with (head :: removelast (neck :: rest)).
      intros ? ? ? [= <- <- _]. apply step_head_translate.
Qed.

(** X11. Within a round the snake is never steered back onto its neck: the
    pending direction is never the opposite of the current one, and the
    cell the next tick heads for is never the second segment. *)
Theorem no_reversal_in_play (self : SnakeGame) (head neck : Point)
    (rest : list Point) :
  playing self ->
  snake self = head :: neck :: rest ->
  is_opposite (next_direction self) (direction self) = false
  ∧ step_head self head ≠ neck.
Proof.
  intros [Hopp Hhead]%heading_ok_playing Hsnake. split; [done|].
  rewrite step_head_translate, (Hhead _ _ _ Hsnake).
  destruct neck as [nx ny]. unfold translate. cbn.
  destruct (next_direction self), (direction self); try done; cbn;
    intros [= ? ?]; lia.
Qed.

Lemma play_update_on (r : nat) (self : SnakeGame) :
  playing self -> ticks_on r self = true ->
  playing (state_of (_update r self)).
Proof.
  unfold ticks_on. intros Hplay Hon.
  destruct (_update r self) as [st self'|] eqn:Hup; [|done].
  apply (play_update r self self' st); [done..|]. by intros ->.
Qed.

Lemma coiled_playing : playing coiled.
Proof.
  replace coiled with
    (state_of (_handle_key (ord "s")
      (state_of (_update 0
        (state_of (_handle_key (ord "a")
          (state_of (_update 0
            (state_of (_handle_key (ord "w")
              (state_of (_update 0
                (state_of (_reset_game 53 new10))))))))))))))
    by (vm_compute; reflexivity).
  apply play_key, play_update_on; [|vm_compute; reflexivity].
  apply play_key, play_update_on; [|vm_compute; reflexivity].
  apply play_key, play_update_on; [|vm_compute; reflexivity].
  apply play_reset.
Qed.

Lemma no_reversal_in_play_witness :
  is_opposite (next_direction coiled) (direction coiled) = false
  ∧ step_head coiled (mkPoint 5 4) ≠ mkPoint 6 4.
Proof.
  exact (no_reversal_in_play coiled (mkPoint 5 4) (mkPoint 6 4)
           [mkPoint 6 5; mkPoint 5 5] coiled_playing eq_refl).
Defined.

(** A round that has ended in a collision is another matter: the direction
    is committed without a move, so a later request may point at the neck.
    Along the top row heading RIGHT, UP hits the wall; then LEFT is admitted
    and leads back onto the second segment. *)
Example reversal_after_collision :
  ∃ self,
    (_reset_game 0;; _handle_key (ord "w");; _update 0;; _update 0;;
     _update 0;; _update 0;; _update 0;; _handle_key (ord "d");; _update 0;;
     _handle_key (ord "w");; _update 0;; _handle_key (ord "a")) new10
    = Ok tt self
    ∧ snake self = [mkPoint 6 0; mkPoint 5 0; mkPoint 5 1]
    ∧ step_head self (mkPoint 6 0) = mkPoint 5 0.
Proof. eexists. split; [vm_compute; reflexivity|]. by vm_compute. Qed.

(** ** The end of the food *)

(** X12. On a board of at least 10x10 the engine is out of food in play
    only when the snake covers the board: its length is then width times
    height, and the score three less. *)
Theorem no_food_means_max_score (self : SnakeGame) :
  reachable self ->
  10 <= width self -> 10 <= height self ->
  food self = None ->
  Z.of_nat (length (snake self)) = width self * height self
  ∧ score self = width self * height self - 3.
Proof.
  intros Hreach Hw Hh Hnone.
  assert (Z.of_nat (length (snake self)) = width self * height self) as Hlen.
  { destruct (reachable_nonempty self Hreach) as [[Hset Hnodup] _].
    pose proof (on_board_reachable self Hreach Hw Hh) as Hon.
    rewrite <- length_all_cells by lia. f_equal.
    apply Nat.le_antisymm; apply submseteq_length, NoDup_submseteq;
      try done; try apply NoDup_all_cells; intros p Hp.
    - apply elem_of_all_cells. by rewrite Forall_forall in Hon; apply Hon.
    - apply elem_of_all_cells in Hp.
      apply (no_food_means_full self Hreach Hnone) in Hp.
      by rewrite Hset, elem_of_list_to_set in Hp. }
  split; [done|].
  destruct (length_score_reachable self Hreach) as [Hscore _].
  lia.
Qed.

Lemma won_in_play : reachable (state_of (_update 0 nearly_won)).
Proof. apply reach_update, nearly_won_in_play. Qed.

Lemma no_food_means_max_score_witness :
  Z.of_nat (length (snake (state_of (_update 0 nearly_won)))) = 10 * 10
  ∧ score (state_of (_update 0 nearly_won)) = 10 * 10 - 3.
Proof.
  apply (no_food_means_max_score (state_of (_update 0 nearly_won)) won_in_play).
  - vm_compute. discriminate.
  - vm_compute. discriminate.
  - vm_compute. reflexivity.
Defined.

(** ** The game loop *)

Lemma _handle_game_end_skip (r : nat) (key : Z) (rest : list Z)
    (self : SnakeGame) :
  ¬ answers_prompt key ->
  _handle_game_end r (key :: rest) self = _handle_game_end r rest self.
Proof.
  unfold answers_prompt. intros Hkey. cbn [_handle_game_end].
  rewrite !(bool_decide_eq_false_2 (key = _)) by tauto. done.
Qed.

Lemma _handle_game_end_replay (r : nat) (ks rest : list Z) (key : Z)
    (self : SnakeGame) :
  Forall (fun k => ¬ answers_prompt k) ks ->
  key = ord "r" ∨ key = ord "R" ->
  _handle_game_end r (ks ++ key :: rest) self
  = Ok (Some true) (state_of (_reset_game r self)).
Proof.
  intros Hks Hr. induction Hks as [|k ks Hk _ IH].
  - rewrite app_nil_l. cbn [_handle_game_end].
    assert (bool_decide (key = ord "q") || bool_decide (key = ord "Q") = false)
      as -> by (destruct Hr as [-> | ->]; vm_compute; reflexivity).
    assert (bool_decide (key = ord "r") || bool_decide (key = ord "R") = true)
      as -> by (destruct Hr as [-> | ->]; vm_compute; reflexivity).
    unfold mbind, M_bind. by rewrite _reset_game_unfold, _spawn_food_unfold.
  - by rewrite <- app_comm_cons, _handle_game_end_skip.
Qed.

(** X13. At the end-of-round prompt every key but [q], [Q], [r], [R] is
    ignored and the first of those decides: a quit key sets
    [quit_requested], touches nothing else and returns False; a replay key
    resets the engine and returns True; and while no such key has come the
    call is still waiting, the engine untouched. *)
Theorem game_end_prompt (r : nat) (ks rest : list Z) (key : Z)
    (self : SnakeGame) :
  Forall (fun k => ¬ answers_prompt k) ks ->
  _handle_game_end r ks self = Ok None self
  ∧ (key = ord "q" ∨ key = ord "Q" ->
     _handle_game_end r (ks ++ key :: rest) self
     = Ok (Some false) (set_quit_requested true self))
  ∧ (key = ord "r" ∨ key = ord "R" ->
     _handle_game_end r (ks ++ key :: rest) self
     = Ok (Some true) (state_of (_reset_game r self))).
Proof.
  intros Hks. split; [|split].
  - induction Hks as [|k ks Hk _ IH]; [done|].
    by rewrite _handle_game_end_skip.
  - intros Hq. induction Hks as [|k ks Hk _ IH].
    + rewrite app_nil_l. cbn [_handle_game_end].
      assert (bool_decide (key = ord "q") || bool_decide (key = ord "Q") = true)
        as -> by (destruct Hq as [-> | ->]; vm_compute; reflexivity).
      done.
    + by rewrite <- app_comm_cons, _handle_game_end_skip.
  - by apply _handle_game_end_replay.
Qed.

Lemma game_end_prompt_witness :
  _handle_game_end 0 [ord "x"; curses.KEY_UP] hooked = Ok None hooked
  ∧ (ord "q" = ord "q" ∨ ord "q" = ord "Q" ->
     _handle_game_end 0 ([ord "x"; curses.KEY_UP] ++ ord "q" :: [ord "r"]) hooked
     = Ok (Some false) (set_quit_requested true hooked))
  ∧ (ord "q" = ord "r" ∨ ord "q" = ord "R" ->
     _handle_game_end 0 ([ord "x"; curses.KEY_UP] ++ ord "q" :: [ord "r"]) hooked
     = Ok (Some true) (state_of (_reset_game 0 hooked))).
Proof.
  apply game_end_prompt.
  repeat constructor; unfold answers_prompt; vm_compute; intuition discriminate.
Defined.

Lemma loop_body_unfold (last_update : float) (io : Readings)
    (self : SnakeGame) :
  loop_body last_update io self =
  let ready := state_of (_process_input (pending_keys io) self) in
  if quit_requested ready then Ok Break ready
  else if tick_due ready (now io) last_update
  then match _update (spawn_draw io) ready with
       | Ok st ended =>
           if bool_decide (st = COLLISION) || bool_decide (st = WIN)
           then match _handle_game_end (reset_draw io) (prompt_keys io) ended with
                | Ok None s => Ok Waiting s
                | Ok (Some false) s => Ok Break s
                | Ok (Some true) s => Ok (Continue (restart_time io) None) s
                | Raise e s => Raise e s
                end
           else loop_tail (now io) io ended
       | Raise e s => Raise e s
       end
  else loop_tail last_update io ready.
Proof.
  unfold loop_body, mbind, M_bind, gets.
  destruct (_process_input_same_board (pending_keys io) self)
    as (ready & -> & _).
  cbn [state_of]. destruct (quit_requested ready); [done|].
  destruct (tick_due ready (now io) last_update); [|done].
  destruct (_update (spawn_draw io) ready) as [st ended|]; [|done].
  destruct (bool_decide (st = COLLISION) || bool_decide (st = WIN)); [|done].
  by destruct (_handle_game_end _ _ ended) as [[[]|]|].
Qed.

(** X14. An iteration of the loop whose input leaves the engine paused, or
    comes before the frame delay has passed, runs no tick: it returns for
    the next iteration with [last_update] as it was, the redraw flag
    cleared, and the board (body, food, score, direction) untouched.  One
    whose input requests quit breaks out of the loop, the board untouched
    as well. *)
Theorem idle_iteration (last_update : float) (io : Readings)
    (self : SnakeGame) :
  let ready := state_of (_process_input (pending_keys io) self) in
  (quit_requested ready = true ->
     loop_body last_update io self = Ok Break ready ∧ same_board self ready)
  ∧ (quit_requested ready = false ->
     paused ready = true
     ∨ (frame_delay self <=? now io - last_update)%float = false ->
     ∃ slept self',
       loop_body last_update io self = Ok (Continue last_update slept) self'
       ∧ self' = set_needs_redraw false ready
       ∧ same_board self self').
Proof.
  cbv zeta. rewrite loop_body_unfold. cbv zeta.
  destruct (_process_input_same_board (pending_keys io) self)
    as (ready & -> & Hsame).
  cbn [state_of]. split.
  - intros ->. by split.
  - intros -> Hidle.
    assert (tick_due ready (now io) last_update = false) as ->.
    { unfold tick_due. destruct Hidle as [-> | Hearly]; [done|].
      destruct Hsame as (_ & _ & _ & -> & _). rewrite Hearly.
      apply andb_false_r. }
    eexists _, _. split; [reflexivity|]. split; [done|].
    eapply same_board_trans; [done|]. by repeat split.
Qed.

(** X15. An iteration whose tick ends the round, answered at the prompt by
    a replay key, leaves a freshly reset engine and goes on with
    [last_update] read anew and without sleeping. *)
Theorem round_end_replay (last_update : float) (io : Readings)
    (self ended : SnakeGame) (st : GameState) (ks rest : list Z) (key : Z) :
  let ready := state_of (_process_input (pending_keys io) self) in
  quit_requested ready = false ->
  tick_due ready (now io) last_update = true ->
  _update (spawn_draw io) ready = Ok st ended ->
  st ≠ RUNNING ->
  Forall (fun k => ¬ answers_prompt k) ks ->
  key = ord "r" ∨ key = ord "R" ->
  prompt_keys io = ks ++ key :: rest ->
  loop_body last_update io self
  = Ok (Continue (restart_time io) None)
       (state_of (_reset_game (reset_draw io) ended)).
Proof.
  cbv zeta. rewrite loop_body_unfold. cbv zeta.
  intros -> -> -> Hst Hks Hkey ->.
  assert (bool_decide (st = COLLISION) || bool_decide (st = WIN) = true) as ->
    by by destruct st.
  by rewrite _handle_game_end_replay.
Qed.

Lemma round_end_replay_witness :
  loop_body 0 crash_io hooked
  = Ok (Continue (restart_time crash_io) None)
       (state_of (_reset_game (reset_draw crash_io) (commit hooked))).
Proof.
  apply (round_end_replay 0 crash_io hooked (commit hooked) COLLISION
           [ord "x"] [] (ord "r")).
  - reflexivity.
  - reflexivity.
  - vm_compute. reflexivity.
  - discriminate.
  - repeat constructor. unfold answers_prompt. vm_compute.
    intuition discriminate.
  - by left.
  - reflexivity.
Defined.

(** A paused engine sits through an iteration that would otherwise tick. *)
Example paused_iteration :
  ∃ slept self',
    loop_body 0 (mkReadings [ord "p"] 1 1 0 [] 0 2 1) coiled
    = Ok (Continue 0 slept) self'
    ∧ snake self' = snake coiled ∧ paused self' = true.
Proof. eexists _, _. split; [vm_compute; reflexivity|]. by vm_compute. Qed.

(** ** Rendering *)

Section Rendering.

Implicit Types (self : SnakeGame) (size : Z * Z) (c : Call).

Lemma elem_of_range2 (a b z : Z) : z ∈ range2 a b <-> a <= z < b.
Proof.
  unfold range2. rewrite list_elem_of_fmap. setoid_rewrite elem_of_range.
  split.
  - intros (i & -> & Hi). lia.
  - intros Hz. exists (z - a). lia.
Qed.

Lemma length_substring_le (s : string) (m : nat) :
  (String.length (String.substring 0 m s) <= m)%nat.
Proof.
  revert m. induction s as [|a s IH]; intros [|m]; cbn; try lia.
  specialize (IH m). lia.
Qed.

Lemma elem_of_safe_addch size (cy cx : Z) (ch : ascii) c :
  c ∈ _safe_addch size cy cx ch
  <-> c = addch cy cx ch ∧ 0 <= cy < size.1 ∧ 0 <= cx < size.2.
Proof.
  destruct size as [max_y max_x]. unfold _safe_addch. cbn [fst snd].
  destruct ((0 <=? cy) && (cy <? max_y) && (0 <=? cx) && (cx <? max_x))
    eqn:Hwin.
  - rewrite list_elem_of_singleton. intuition lia.
  - rewrite elem_of_nil. intuition lia.
Qed.

Lemma safe_addstr_within size (cy cx : Z) (text : string) (attr : Z) :
  0 <= cx -> Forall (within size) (_safe_addstr size cy cx text attr).
Proof.
  intros Hcx. destruct size as [max_y max_x]. unfold _safe_addstr.
  destruct ((0 <=? cy) && (cy <? max_y) && (cx <? max_x)) eqn:Hwin; [|done].
  cbv zeta.
  destruct (slice_to text (Z.max 0 (max_x - cx))) as [|a t] eqn:Hslice; [done|].
  apply Forall_singleton. cbn [within fst snd].
  repeat split; try lia; [done|].
  rewrite <- Hslice. unfold len, slice_to.
  pose proof (length_substring_le text (Z.to_nat (Z.max 0 (max_x - cx)))).
  lia.
Qed.

Lemma safe_addstr_no_addch size (cy cx : Z) (text : string) (attr : Z)
    (y x : Z) (ch : ascii) :
  addch y x ch ∉ _safe_addstr size cy cx text attr.
Proof.
  destruct size as [max_y max_x]. unfold _safe_addstr. cbv zeta.
  intros Hin. repeat case_match; try by apply elem_of_nil in Hin.
  by apply list_elem_of_singleton in Hin.
Qed.

(** The characters [_draw_border] puts out: the border cells that are
    inside the window. *)
Lemma elem_of_draw_border self size c :
  c ∈ _draw_border self size
  <-> ∃ cy cx, c = addch cy cx "#"
      ∧ (0 <= cy < size.1 ∧ 0 <= cx < size.2)
      ∧ (((cy = 1 ∨ cy = height self + 2) ∧ 1 <= cx <= width self + 2)
         ∨ ((cx = 1 ∨ cx = width self + 2) ∧ 2 <= cy <= height self + 1)).
Proof.
  unfold _draw_border, board_offset_y, board_offset_x. cbv zeta.
  rewrite elem_of_app, !list_elem_of_bind.
  setoid_rewrite elem_of_app. setoid_rewrite elem_of_safe_addch.
  setoid_rewrite elem_of_range2. split.
  - intros [(cx & [(-> & Hy & Hx)|(-> & Hy & Hx)] & Hr)
           |(cy & [(-> & Hy & Hx)|(-> & Hy & Hx)] & Hr)];
      eexists _, _; (split; [reflexivity|]); (split; [done|]); lia.
  - intros (cy & cx & -> & Hwin & [[Hrow Hcol]|[Hcol Hrow]]).
    + left. exists cx. split; [|lia].
      destruct Hrow as [-> | ->]; [left|right]; (split; [f_equal; lia|lia]).
    + right. exists cy. split; [|lia].
      destruct Hcol as [-> | ->]; [left|right]; (split; [f_equal; lia|lia]).
Qed.

(** The characters [_draw_snake_and_food] puts out. *)
Lemma elem_of_draw_snake_and_food self size c :
  c ∈ _draw_snake_and_food self size
  <-> ∃ cy cx ch, c = addch cy cx ch
      ∧ (0 <= cy < size.1 ∧ 0 <= cx < size.2)
      ∧ ((∃ i p, snake self !! i = Some p
            ∧ cy = 2 + y p ∧ cx = 2 + x p
            ∧ ch = (if bool_decide (i = 0%nat) then "@" else "O")%char)
         ∨ (∃ f, food self = Some f
              ∧ cy = 2 + y f ∧ cx = 2 + x f ∧ ch = "*"%char)).
Proof.
  unfold _draw_snake_and_food, board_offset_y, board_offset_x. cbv zeta.
  rewrite elem_of_app, list_elem_of_join.
  setoid_rewrite elem_of_lookup_imap. split.
  - intros [(l & Hc & i & p & -> & Hp)|Hc].
    + apply elem_of_safe_addch in Hc as (-> & Hwin).
      eexists _, _, _. split; [reflexivity|]. split; [done|].
      left. by exists i, p.
    + destruct (food self) as [f|] eqn:Hf; [|by apply elem_of_nil in Hc].
      apply elem_of_safe_addch in Hc as (-> & Hwin).
      eexists _, _, _. split; [reflexivity|]. split; [done|].
      right. by exists f.
  - intros (cy & cx & ch & -> & Hwin & [(i & p & Hp & -> & -> & ->)
                                       |(f & Hf & -> & -> & ->)]).
    + left. eexists. split; [|by exists i, p].
      by apply elem_of_safe_addch.
    + right. rewrite Hf. by apply elem_of_safe_addch.
Qed.

Lemma draw_unfold self size (status_message : option string) :
  _draw self size status_message =
  if (size.1 <? board_offset_y + height self + 3)
     || (size.2 <? board_offset_x + width self + 3)
  then (_ensure_window_size self size).2
  else
    [erase]
    ++ _safe_addstr size 0 2 (" Score: " +:+ str (score self) +:+ " ")
         curses.A_REVERSE
    ++ _safe_addstr size 0
         (len (" Score: " +:+ str (score self) +:+ " ") + 4)
         (" Length: " +:+ str (Z.of_nat (length (snake self))) +:+ " ") 0
    ++ match (if paused self then Some "Paused - press 'p' to resume."
              else status_message) with
       | Some (String _ _ as message) => _safe_addstr size 1 2 message 0
       | _ => []
       end
    ++ _draw_border self size
    ++ _draw_snake_and_food self size
    ++ _safe_addstr size (size.1 - 1) 2
         "Controls: Arrow keys/WASD move | P pause | Q quit" 0
    ++ [refresh].
Proof.
  destruct size as [max_y max_x]. unfold _draw, _ensure_window_size.
  cbn [fst snd]. by destruct (_ || _).
Qed.

End Rendering.

Section Picture.

Implicit Types (self : SnakeGame) (size : Z * Z) (c : Call).

Lemma fits_dec self size :
  (size.1 <? board_offset_y + height self + 3)
  || (size.2 <? board_offset_x + width self + 3) = false
  <-> fits self size.
Proof.
  unfold fits. rewrite orb_false_iff, !Z.ltb_ge. done.
Qed.

Lemma warned_no_addch self size (cy cx : Z) (ch : ascii) :
  addch cy cx ch ∉ (_ensure_window_size self size).2.
Proof.
  destruct size as [max_y max_x]. unfold _ensure_window_size. cbv zeta.
  destruct (_ || _); cbn [snd]; [|apply not_elem_of_nil].
  rewrite !elem_of_app, !elem_of_cons, !elem_of_nil.
  intros [[[=]|[]]|[Hin|[[=]|[[=]|[]]]]]. by apply safe_addstr_no_addch in Hin.
Qed.

(** Which characters [_draw] puts where: those of the picture that fall
    inside the window, provided the window is large enough. *)
Lemma addch_in_draw self size (status_message : option string)
    (cy cx : Z) (ch : ascii) :
  addch cy cx ch ∈ _draw self size status_message
  <-> fits self size
      ∧ (0 <= cy < size.1 ∧ 0 <= cx < size.2)
      ∧ shown self cy cx ch.
Proof.
  rewrite draw_unfold.
  destruct (_ || _) eqn:Hfits.
  { split; [by intros ?%warned_no_addch|].
    intros [Hf%fits_dec _]. congruence. }
  apply fits_dec in Hfits. unfold shown.
  rewrite !elem_of_app, !list_elem_of_singleton.
  rewrite elem_of_draw_border, elem_of_draw_snake_and_food. split.
  - intros [[=]|[Hin|[Hin|[Hin|[Hin|[Hin|[Hin|[=]]]]]]]];
      try (by apply safe_addstr_no_addch in Hin).
    + repeat case_match; try (by apply elem_of_nil in Hin);
        by apply safe_addstr_no_addch in Hin.
    + destruct Hin as (? & ? & [= -> -> ->] & Hwin & Hcell). auto.
    + destruct Hin as (? & ? & ? & [= -> -> ->] & Hwin & Hcell).
      split; [done|]. split; [done|]. right. exact Hcell.
  - intros (_ & Hwin & [[-> Hcell]|Hcell]).
    + do 4 right. left. by eexists _, _.
    + do 5 right. left. by eexists _, _, _.
Qed.

(** In play on a board of at least 10x10 no two characters of the picture
    share a cell, and the picture fits inside any window that is large
    enough. *)
Lemma shown_in_play self (cy cx : Z) (ch : ascii) :
  reachable self -> 10 <= width self -> 10 <= height self ->
  shown self cy cx ch ->
  2 <= cy + 1 <= height self + 3 ∧ 2 <= cx + 1 <= width self + 3
  ∧ ∀ ch', shown self cy cx ch' -> ch = ch'.
Proof.
  intros Hreach Hw Hh.
  pose proof (on_board_reachable self Hreach Hw Hh) as Hon.
  pose proof (food_ok_reachable self Hreach) as Hfood.
  destruct (reachable_nonempty self Hreach) as [[Hset Hnodup] _].
  assert (∀ i p, snake self !! i = Some p ->
            0 <= x p < width self ∧ 0 <= y p < height self) as Hseg.
  { intros i p Hp. rewrite Forall_lookup in Hon. specialize (Hon i p Hp).
    unfold in_bounds in Hon. lia. }
  assert (∀ f, food self = Some f ->
            (0 <= x f < width self ∧ 0 <= y f < height self)
            ∧ f ∉ snake self) as Hf.
  { intros f Hf. destruct (Hfood f Hf) as [Hin Hoff]. split.
    - unfold in_bounds in Hin. lia.
    - by rewrite Hset, elem_of_list_to_set in Hoff. }
  assert (∀ p q : Point, 2 + y p = 2 + y q -> 2 + x p = 2 + x q -> p = q)
    as Hcell.
  { intros [? ?] [? ?]. cbn. intros. f_equal; lia. }
  intros [[-> Hb]|[(i & p & Hp & -> & -> & ->)|(f & Hfd & -> & -> & ->)]].
  - split; [lia|]. split; [lia|].
    intros ch' [[-> _]|[(j & q & Hq & Hy & Hx & _)|(f & Hfd & Hy & Hx & _)]];
      [done| |].
    + destruct (Hseg j q Hq). lia.
    + destruct (Hf f Hfd) as [? _]. lia.
  - destruct (Hseg i p Hp). split; [lia|]. split; [lia|].
    intros ch' [[-> Hb]|[(j & q & Hq & Hy & Hx & ->)|(f & Hfd & Hy & Hx & _)]].
    + lia.
    + rewrite (Hcell p q Hy Hx) in Hp.
      by rewrite (NoDup_lookup _ _ _ _ Hnodup Hp Hq).
    + destruct (Hf f Hfd) as [_ Hoff]. rewrite (Hcell p f Hy Hx) in Hp.
      destruct Hoff. by eapply list_elem_of_lookup_2.
  - destruct (Hf f Hfd) as [? Hoff]. split; [lia|]. split; [lia|].
    intros ch' [[-> Hb]|[(j & q & Hq & Hy & Hx & _)|(g & Hgd & _ & _ & ->)]].
    + lia.
    + rewrite <- (Hcell f q Hy Hx) in Hq.
      destruct Hoff. by eapply list_elem_of_lookup_2.
    + done.
Qed.

Lemma elem_of_safe_addstr size (cy cx : Z) (text : string) (attr : Z) c :
  c ∈ _safe_addstr size cy cx text attr -> ∃ t, c = addstr cy cx t attr.
Proof.
  destruct size as [max_y max_x]. unfold _safe_addstr. cbv zeta.
  intros Hin. repeat case_match; try by apply elem_of_nil in Hin.
  apply list_elem_of_singleton in Hin. by eexists.
Qed.

(** The rows [_draw] writes text on: the first two and the last of the
    window, or its middle row for the warning of a window too small. *)
Lemma addstr_in_draw self size (status_message : option string)
    (cy cx : Z) (text : string) (attr : Z) :
  addstr cy cx text attr ∈ _draw self size status_message ->
  (fits self size ∧ (cy = 0 ∨ cy = 1 ∨ cy = size.1 - 1))
  ∨ (¬ fits self size ∧ cy = size.1 `div` 2).
Proof.
  rewrite draw_unfold. destruct (_ || _) eqn:Hfits.
  - intros Hin. right. split.
    { intros Hf%fits_dec. congruence. }
    destruct size as [max_y max_x]. unfold _ensure_window_size in Hin.
    cbv zeta in Hin. cbn [fst snd] in Hfits. rewrite Hfits in Hin.
    cbn [snd] in Hin.
    rewrite !elem_of_app, !elem_of_cons, !elem_of_nil in Hin.
    destruct Hin as [[[=]|[]]|[Hin|[[=]|[[=]|[]]]]].
    by apply elem_of_safe_addstr in Hin as (t & [= -> _ _ _]).
  - apply fits_dec in Hfits. intros Hin. left. split; [done|].
    rewrite !elem_of_app, !list_elem_of_singleton in Hin.
    destruct Hin as [[=]|[Hin|[Hin|[Hin|[Hin|[Hin|[Hin|[=]]]]]]]].
    + apply elem_of_safe_addstr in Hin as (t & [= -> _ _ _]). by left.
    + apply elem_of_safe_addstr in Hin as (t & [= -> _ _ _]). by left.
    + repeat case_match; try (by apply elem_of_nil in Hin);
        apply elem_of_safe_addstr in Hin as (t & [= -> _ _ _]); by right; left.
    + by apply elem_of_draw_border in Hin as (? & ? & [=] & _).
    + by apply elem_of_draw_snake_and_food in Hin as (? & ? & ? & [=] & _).
    + apply elem_of_safe_addstr in Hin as (t & [= -> _ _ _]). by right; right.
Qed.

(** In a window large enough, [_draw] first writes its texts of rows 0 and
    1 and only then puts characters: it splits into a part without [addch]
    and a part whose only text is on the last row. *)
Lemma draw_split self size (status_message : option string) :
  fits self size ->
  ∃ texts glyphs,
    _draw self size status_message = texts ++ glyphs
    ∧ (∀ cy cx ch, addch cy cx ch ∉ texts)
    ∧ (∀ cy cx text attr, addstr cy cx text attr ∈ glyphs -> cy = size.1 - 1).
Proof.
  intros Hfits%fits_dec. rewrite draw_unfold, Hfits.
  match goal with
  | |- ∃ texts glyphs, ?a ++ ?b ++ ?c ++ ?d ++ ?e = _ ∧ _ =>
      exists (a ++ b ++ c ++ d), e
  end.
  split; [|split].
  - by rewrite <- !app_assoc.
  - intros cy cx ch. rewrite !elem_of_app, list_elem_of_singleton.
    intros [[=]|[Hin|[Hin|Hin]]];
      try (by apply safe_addstr_no_addch in Hin).
    repeat case_match; try (by apply elem_of_nil in Hin);
      by apply safe_addstr_no_addch in Hin.
  - intros cy cx text attr. rewrite !elem_of_app, list_elem_of_singleton.
    intros [Hin|[Hin|[Hin|[=]]]].
    + by apply elem_of_draw_border in Hin as (? & ? & [=] & _).
    + by apply elem_of_draw_snake_and_food in Hin as (? & ? & ? & [=] & _).
    + by apply elem_of_safe_addstr in Hin as (t & [= -> _ _ _]).
Qed.

End Picture.

(** X16. Whatever the engine state and the window size, every call that
    [_draw] makes stays inside the window: each character goes to a cell of
    the window, each text is non-empty, starts on a row of the window at or
    after its left edge, and ends at or before its right edge. *)
Theorem draw_within_window (self : SnakeGame) (size : Z * Z)
    (status_message : option string) :
  Forall (within size) (_draw self size status_message).
Proof.
  assert (∀ y x text attr, 0 <= x ->
            Forall (within size) (_safe_addstr size y x text attr)) as Hstr
    by (intros; by apply safe_addstr_within).
  rewrite draw_unfold. destruct (_ || _).
  - destruct size as [max_y max_x]. unfold _ensure_window_size. cbv zeta.
    destruct (_ || _); cbn [snd]; [|done].
    apply Forall_cons. split; [done|]. apply Forall_app. split; [|by repeat constructor].
    apply Hstr. lia.
  - apply Forall_app; split; [by repeat constructor|].
    apply Forall_app; split; [apply Hstr; lia|].
    apply Forall_app; split; [apply Hstr; unfold len; lia|].
    apply Forall_app; split;
      [repeat case_match; try done; apply Hstr; lia|].
    apply Forall_app; split.
    { apply Forall_forall.
      intros c (cy & cx & -> & Hwin & _)%elem_of_draw_border. exact Hwin. }
    apply Forall_app; split.
    { apply Forall_forall.
      intros c (cy & cx & ch & -> & Hwin & _)%elem_of_draw_snake_and_food.
      exact Hwin. }
    apply Forall_app; split; [apply Hstr; lia|by repeat constructor].
Qed.

(** X17. In play on a board of at least 10x10, drawn in a window that is
    large enough, the [addch] calls of [_draw] are exactly the picture of
    the board: the border, [@] on the head, [O] on every other segment and
    [*] on the food, each at its cell, none dropped and no other made.  Its
    [addstr] calls go to rows 0, 1 and the last row of the window only, so
    of the rows of the picture none but row 1, the top border, gets text. *)
Theorem draw_shows_board (self : SnakeGame) (size : Z * Z)
    (status_message : option string) (cy cx : Z) (ch : ascii) :
  reachable self -> 10 <= width self -> 10 <= height self ->
  fits self size ->
  (addch cy cx ch ∈ _draw self size status_message <-> shown self cy cx ch)
  ∧ (∀ y x text attr,
       addstr y x text attr ∈ _draw self size status_message ->
       y = 0 ∨ y = 1 ∨ y = size.1 - 1)
  ∧ (shown self cy cx ch -> cy ≠ 1 ->
     ∀ x text attr,
       addstr cy x text attr ∉ _draw self size status_message).
Proof.
  intros Hreach Hw Hh Hfits.
  assert (∀ y x text attr,
            addstr y x text attr ∈ _draw self size status_message ->
            y = 0 ∨ y = 1 ∨ y = size.1 - 1) as Hrows.
  { intros y x text attr [[_ Hy]|[Hno _]]%addstr_in_draw; [done|].
    by destruct Hno. }
  split; [|split; [exact Hrows|]].
  - rewrite addch_in_draw. split; [tauto|].
    intros Hshown. split; [done|]. split; [|done].
    destruct (shown_in_play self cy cx ch Hreach Hw Hh Hshown)
      as (Hy & Hx & _).
    unfold fits, board_offset_y, board_offset_x in Hfits. lia.
  - intros Hshown Htop x text attr Hin%Hrows.
    destruct (shown_in_play self cy cx ch Hreach Hw Hh Hshown)
      as (Hy & _ & _).
    unfold fits, board_offset_y, board_offset_x in Hfits. lia.
Qed.

(** X18. In play on a board of at least 10x10, whatever the window size, a
    [_draw] makes [addch] calls only when the window is large enough; it
    never makes two [addch] calls with different characters for one cell;
    the only row on which it both writes text ([addstr]) and puts a
    character is row 1, the top border under the status message; and there
    every text is written before the character is put. *)
Theorem draw_unambiguous (self : SnakeGame) (size : Z * Z)
    (status_message : option string) (cy cx : Z) (ch : ascii) :
  reachable self -> 10 <= width self -> 10 <= height self ->
  addch cy cx ch ∈ _draw self size status_message ->
  fits self size
  ∧ (∀ ch', addch cy cx ch' ∈ _draw self size status_message -> ch = ch')
  ∧ (∀ x text attr,
       addstr cy x text attr ∈ _draw self size status_message -> cy = 1)
  ∧ (∀ (i j : nat) x text attr,
       _draw self size status_message !! i = Some (addstr cy x text attr) ->
       _draw self size status_message !! j = Some (addch cy cx ch) ->
       (i < j)%nat).
Proof.
  intros Hreach Hw Hh (Hfits & Hwin & Hshown)%addch_in_draw.
  destruct (shown_in_play self cy cx ch Hreach Hw Hh Hshown)
    as (Hy & _ & Hone).
  assert (∀ x text attr,
            addstr cy x text attr ∈ _draw self size status_message -> cy = 1)
    as Hrow.
  { intros x text attr [[_ Hrows]|[Hno _]]%addstr_in_draw; [|by destruct Hno].
    unfold fits, board_offset_y, board_offset_x in Hfits. lia. }
  split; [done|]. split; [|split; [exact Hrow|]].
  - intros ch2 (_ & _ & Hshown2)%addch_in_draw. by apply Hone.
  - intros i j x text attr Hi Hj.
    pose proof (Hrow x text attr (list_elem_of_lookup_2 _ _ _ Hi)) as ->.
    destruct (draw_split self size status_message Hfits)
      as (texts & glyphs & Hsplit & Htexts & Hglyphs).
    rewrite Hsplit in Hi, Hj.
    destruct (decide (i < length texts)%nat) as [Hlt|Hge].
    + destruct (decide (j < length texts)%nat) as [Hj'|Hj']; [|lia].
      rewrite lookup_app_l in Hj by done.
      by apply list_elem_of_lookup_2, Htexts in Hj.
    + rewrite lookup_app_r in Hi by lia.
      apply list_elem_of_lookup_2, Hglyphs in Hi.
      unfold fits, board_offset_y, board_offset_x in Hfits. lia.
Qed.

Lemma coiled_head_drawn : addch 6 7 "@" ∈ _draw coiled (20, 40) None.
Proof. apply (list_elem_of_lookup_2 _ 47). vm_compute. reflexivity. Qed.

Lemma draw_shows_board_witness :
  (addch 6 7 "@" ∈ _draw coiled (20, 40) None <-> shown coiled 6 7 "@")
  ∧ (∀ y x text attr,
       addstr y x text attr ∈ _draw coiled (20, 40) None ->
       y = 0 ∨ y = 1 ∨ y = (20, 40).1 - 1)
  ∧ (shown coiled 6 7 "@" -> 6 ≠ 1 ->
     ∀ x text attr, addstr 6 x text attr ∉ _draw coiled (20, 40) None).
Proof.
  apply (draw_shows_board coiled (20, 40) None 6 7 "@" coiled_in_play);
    [cbn; lia | cbn; lia | split; vm_compute; discriminate].
Defined.

(** The top border of a paused engine: [#] put on row 1 after the status
    message was written there. *)
Lemma paused_border_drawn :
  addch 1 2 "#" ∈ _draw (set_paused true coiled) (20, 40) None.
Proof. apply (list_elem_of_lookup_2 _ 6). vm_compute. reflexivity. Qed.

Lemma paused_coiled_in_play : reachable (set_paused true coiled).
Proof.
  replace (set_paused true coiled)
    with (state_of (_handle_key (ord "p") coiled))
    by (vm_compute; reflexivity).
  apply reach_key, coiled_in_play.
Qed.

Lemma draw_unambiguous_witness :
  fits (set_paused true coiled) (20, 40)
  ∧ (∀ ch', addch 1 2 ch' ∈ _draw (set_paused true coiled) (20, 40) None ->
            "#"%char = ch')
  ∧ (∀ x text attr,
       addstr 1 x text attr ∈ _draw (set_paused true coiled) (20, 40) None ->
       1 = 1)
  ∧ (∀ (i j : nat) x text attr,
       _draw (set_paused true coiled) (20, 40) None !! i
       = Some (addstr 1 x text attr) ->
       _draw (set_paused true coiled) (20, 40) None !! j
       = Some (addch 1 2 "#") ->
       (i < j)%nat).
Proof.
  apply (draw_unambiguous (set_paused true coiled) (20, 40) None 1 2 "#"
           paused_coiled_in_play);
    [cbn; lia | cbn; lia | exact paused_border_drawn].
Defined.

(** The status message of a paused engine starts on the cell the top
    border then takes. *)
Example status_under_border :
  _draw (set_paused true coiled) (20, 40) None !! 3%nat
  = Some (addstr 1 2 "Paused - press 'p' to resume." 0)
  ∧ _draw (set_paused true coiled) (20, 40) None !! 6%nat
    = Some (addch 1 2 "#").
Proof. split; vm_compute; reflexivity. Qed.

(** A window of 10 rows is too small for the 10x10 board: [_draw] only
    warns, and waits. *)
Example draw_too_small :
  _draw coiled (10, 40) None
  = [erase; addstr 5 0 "Terminal too small. Need at least 15x15," 0;
     refresh; time_sleep 0.4].
Proof. vm_compute. reflexivity. Qed.

(** ** Errors *)

(** X19. In play nothing raises: a tick returns (neither [self.snake[0]]
    nor [self.snake_positions.remove(tail)] can fail), and so does a whole
    iteration of the loop. *)
Theorem play_never_raises (self : SnakeGame) :
  reachable self ->
  (∀ r, ∃ st self', _update r self = Ok st self')
  ∧ (∀ last_update io, ∃ ctl self',
       loop_body last_update io self = Ok ctl self').
Proof.
  intros Hreach. split; [intros r; by apply reachable_update_returns|].
  intros last_update io. rewrite loop_body_unfold. cbv zeta.
  assert (reachable (state_of (_process_input (pending_keys io) self)))
    as Hready by by apply reach_input.
  destruct (quit_requested _); [by eexists _, _|].
  destruct (tick_due _ _ _); [|by eexists _, _].
  destruct (reachable_update_returns (spawn_draw io) _ Hready)
    as (st & ended & ->).
  destruct (bool_decide (st = COLLISION) || bool_decide (st = WIN));
    [|by eexists _, _].
  assert (∀ ks s, ∃ o s', _handle_game_end (reset_draw io) ks s = Ok o s')
    as Hend.
  { induction ks as [|k ks IH]; intros s; [by eexists _, _|].
    cbn [_handle_game_end]. repeat case_match; [by eexists _, _| |apply IH].
    unfold mbind, M_bind. rewrite _reset_game_unfold, _spawn_food_unfold.
    by eexists _, _. }
  destruct (Hend (prompt_keys io) ended) as (o & s' & ->).
  destruct o as [[]|]; by eexists _, _.
Qed.

Lemma play_never_raises_witness :
  (∀ r, ∃ st self', _update r coiled = Ok st self')
  ∧ (∀ last_update io, ∃ ctl self',
       loop_body last_update io coiled = Ok ctl self').
Proof. exact (play_never_raises coiled coiled_in_play). Defined.

(** Outside play both exceptions are within reach: a tick on an engine
    with food but no snake, and on one whose set has lost the tail. *)
Example update_raises_IndexError :
  ∃ self', _update 0 (set_food (Some (mkPoint 0 0)) new10)
           = Raise IndexError self'.
Proof. eexists. vm_compute. reflexivity. Qed.

Example update_raises_KeyError :
  ∃ self', _update 0 (set_snake_positions ∅ coiled)
           = Raise (KeyError (mkPoint 5 5)) self'.
Proof. eexists. vm_compute. reflexivity. Qed.

(** ** Rounds *)

(** X20. A reset forgets the round before it: its outcome depends on the
    board dimensions, the speed and the draw alone, so resetting twice is
    resetting once. *)
Theorem reset_forgets_round (r r' : nat) (self other : SnakeGame) :
  width other = width self -> height other = height self ->
  speed other = speed self -> frame_delay other = frame_delay self ->
  _reset_game r other = _reset_game r self
  ∧ (_reset_game r';; _reset_game r) self = _reset_game r self.
Proof.
  assert (∀ s s', width s' = width s -> height s' = height s ->
            speed s' = speed s -> frame_delay s' = frame_delay s ->
            _reset_game r s' = _reset_game r s) as Hreset.
  { intros s s' Hw Hh Hs Hd. rewrite !_reset_game_unfold.
    unfold _spawn_food, empty_cells, placed, set_food. cbn.
    by rewrite Hw, Hh, Hs, Hd. }
  intros Hw Hh Hs Hd. split; [by apply Hreset|].
  unfold mbind, M_bind. rewrite (_reset_game_unfold r'), _spawn_food_unfold.
  by apply Hreset.
Qed.

Lemma reset_forgets_round_witness :
  _reset_game 7 coiled = _reset_game 7 new10
  ∧ (_reset_game 3;; _reset_game 7) new10 = _reset_game 7 new10.
Proof. apply reset_forgets_round; reflexivity. Defined.
